(** * The hotkey listener of gemini-mcq-bot, embedded and verified

  Shallow embedding of [hotkey_listener.py] (class [HotkeyListener]) and of
  the workflow callback [ScreenshotAnalyzerApp.run_analysis_workflow] of
  [main_screenshot.py].

  Conventions of the embedding:
  - Python [str] values are Rocq strings; the model covers hotkey strings
    over 7-bit ASCII ([str.lower] and [str.strip] are given for ASCII).
  - Python sets of key objects are [gset key].
  - The names under which [pynput.keyboard.Key] offers its members and its
    other attributes depend on the platform: the parser is given for any
    such lookup ([_parse_hotkey_string_on]) and for the lookup of the
    members under their own names ([_parse_hotkey_string]).
  - A method that mutates [self] is a computation in the monad [M], which
    threads the object, an effect log and a possible Python exception. *)

From Stdlib Require Import Ascii String List Bool Arith Lia.
From stdpp Require Import base decidable countable gmap sets list strings.

#[local] Set Warnings "-clear-no-such-hyp".

Local Open Scope string_scope.

(** ** Key identifiers (the [pynput.keyboard] vocabulary) *)

(** The members of the enumeration [pynput.keyboard.Key].  The enumeration
    belongs to the pynput library, not to this repository; the members are
    the ones its documentation lists.  Every member used by the repository
    ([_KEY_MAP], [_normalize_key]) is among them.  A backend of pynput may
    give one member several names: where [Key.shift_l] is [Key.shift]
    itself, the object is [Key_shift], and [Key_shift_l] is an object that
    no name yields and no event delivers. *)
Inductive Key : Set :=
  | Key_alt | Key_alt_l | Key_alt_r | Key_alt_gr
  | Key_backspace | Key_caps_lock
  | Key_cmd | Key_cmd_l | Key_cmd_r
  | Key_ctrl | Key_ctrl_l | Key_ctrl_r
  | Key_delete | Key_down | Key_end | Key_enter | Key_esc
  | Key_f1 | Key_f2 | Key_f3 | Key_f4 | Key_f5 | Key_f6 | Key_f7
  | Key_f8 | Key_f9 | Key_f10 | Key_f11 | Key_f12 | Key_f13 | Key_f14
  | Key_f15 | Key_f16 | Key_f17 | Key_f18 | Key_f19 | Key_f20
  | Key_home | Key_left | Key_page_down | Key_page_up | Key_right
  | Key_shift | Key_shift_l | Key_shift_r
  | Key_space | Key_tab | Key_up
  | Key_media_play_pause | Key_media_volume_mute | Key_media_volume_down
  | Key_media_volume_up | Key_media_previous | Key_media_next
  | Key_insert | Key_menu | Key_num_lock | Key_pause | Key_print_screen
  | Key_scroll_lock.

(** The attribute name of each member, as [getattr] sees it. *)
Definition Key_name (k : Key) : string :=
  match k with
  | Key_alt => "alt" | Key_alt_l => "alt_l" | Key_alt_r => "alt_r"
  | Key_alt_gr => "alt_gr"
  | Key_backspace => "backspace" | Key_caps_lock => "caps_lock"
  | Key_cmd => "cmd" | Key_cmd_l => "cmd_l" | Key_cmd_r => "cmd_r"
  | Key_ctrl => "ctrl" | Key_ctrl_l => "ctrl_l" | Key_ctrl_r => "ctrl_r"
  | Key_delete => "delete" | Key_down => "down" | Key_end => "end"
  | Key_enter => "enter" | Key_esc => "esc"
  | Key_f1 => "f1" | Key_f2 => "f2" | Key_f3 => "f3" | Key_f4 => "f4"
  | Key_f5 => "f5" | Key_f6 => "f6" | Key_f7 => "f7" | Key_f8 => "f8"
  | Key_f9 => "f9" | Key_f10 => "f10" | Key_f11 => "f11" | Key_f12 => "f12"
  | Key_f13 => "f13" | Key_f14 => "f14" | Key_f15 => "f15" | Key_f16 => "f16"
  | Key_f17 => "f17" | Key_f18 => "f18" | Key_f19 => "f19" | Key_f20 => "f20"
  | Key_home => "home" | Key_left => "left" | Key_page_down => "page_down"
  | Key_page_up => "page_up" | Key_right => "right"
  | Key_shift => "shift" | Key_shift_l => "shift_l" | Key_shift_r => "shift_r"
  | Key_space => "space" | Key_tab => "tab" | Key_up => "up"
  | Key_media_play_pause => "media_play_pause"
  | Key_media_volume_mute => "media_volume_mute"
  | Key_media_volume_down => "media_volume_down"
  | Key_media_volume_up => "media_volume_up"
  | Key_media_previous => "media_previous"
  | Key_media_next => "media_next"
  | Key_insert => "insert" | Key_menu => "menu" | Key_num_lock => "num_lock"
  | Key_pause => "pause" | Key_print_screen => "print_screen"
  | Key_scroll_lock => "scroll_lock"
  end.

Definition Key_members : list Key :=
  [ Key_alt; Key_alt_l; Key_alt_r; Key_alt_gr; Key_backspace; Key_caps_lock;
    Key_cmd; Key_cmd_l; Key_cmd_r; Key_ctrl; Key_ctrl_l; Key_ctrl_r;
    Key_delete; Key_down; Key_end; Key_enter; Key_esc;
    Key_f1; Key_f2; Key_f3; Key_f4; Key_f5; Key_f6; Key_f7; Key_f8; Key_f9;
    Key_f10; Key_f11; Key_f12; Key_f13; Key_f14; Key_f15; Key_f16; Key_f17;
    Key_f18; Key_f19; Key_f20;
    Key_home; Key_left; Key_page_down; Key_page_up; Key_right;
    Key_shift; Key_shift_l; Key_shift_r; Key_space; Key_tab; Key_up;
    Key_media_play_pause; Key_media_volume_mute; Key_media_volume_down;
    Key_media_volume_up; Key_media_previous; Key_media_next;
    Key_insert; Key_menu; Key_num_lock; Key_pause; Key_print_screen;
    Key_scroll_lock ].

(** Lookup in an association list keyed by strings: a Python [dict] literal
    read by [in] and by indexing. *)
Fixpoint assoc {A} (name : string) (table : list (string * A)) : option A :=
  match table with
  | [] => None
  | (n, v) :: rest => if String.eqb name n then Some v else assoc name rest
  end.

(** [getattr(keyboard.Key, part, None)] followed by the truth test
    [if key_attr], on a platform where every member has one name and the
    class offers no other attribute: the member of that name, if there is
    one.  The lookup of any platform is the [getattr_Key] of the section
    [Platform] below. *)
Definition Key_getattr (part : string) : option Key :=
  assoc part (map (fun k => (Key_name k, k)) Key_members).

Lemma Key_getattr_name (k : Key) : Key_getattr (Key_name k) = Some k.
Proof. destruct k; vm_compute; reflexivity. Qed.

(** Position of a member in the enumeration (its definition order). *)
Fixpoint index_of (k : Key) (eqb : Key -> bool) (members : list Key) : nat :=
  match members with
  | [] => 0
  | m :: rest => if eqb m then 0 else S (index_of k eqb rest)
  end.

Definition Key_index (k : Key) : nat :=
  index_of k (fun m => String.eqb (Key_name m) (Key_name k)) Key_members.

Lemma Key_index_nth (k : Key) : nth_error Key_members (Key_index k) = Some k.
Proof. destruct k; vm_compute; reflexivity. Qed.

#[global] Instance Key_eq_dec : EqDecision Key.
Proof.
  intros a b. destruct (decide (Key_index a = Key_index b)) as [E | N].
  - left. assert (H : Some a = Some b).
    { rewrite <- (Key_index_nth a), <- (Key_index_nth b). now rewrite E. }
    now inversion H.
  - right. intros ->. now apply N.
Defined.

#[global] Instance Key_countable : Countable Key :=
  inj_countable Key_index (nth_error Key_members) Key_index_nth.

(** An object that the listener keeps in a set of keys: a member of [Key],
    a [KeyCode] carrying a character ([KeyCode.from_char]), or another
    attribute of the class [Key] (a method such as [mro], say), which the
    parser finds when it looks a token up by name; such an attribute is
    known by its name and is not a key of the keyboard. *)
Inductive key : Set :=
  | Special (k : Key)
  | KeyCode (char : ascii)
  | Attribute (name : string).

#[global] Instance key_eq_dec : EqDecision key.
Proof. solve_decision. Defined.

Definition key_to_sum (k : key) : Key + ascii + string :=
  match k with
  | Special s => inl (inl s)
  | KeyCode c => inl (inr c)
  | Attribute name => inr name
  end.

Definition key_of_sum (x : Key + ascii + string) : key :=
  match x with
  | inl (inl s) => Special s
  | inl (inr c) => KeyCode c
  | inr name => Attribute name
  end.

#[global] Instance key_countable : Countable key.
Proof.
  apply (inj_countable' key_to_sum key_of_sum). now intros [s | c | name].
Defined.

(** ** [HotkeyListener._KEY_MAP] *)

Definition _KEY_MAP : list (string * key) :=
  [ ("shift", Special Key_shift);
    ("ctrl", Special Key_ctrl);
    ("alt", Special Key_alt);
    ("cmd", Special Key_cmd);
    ("win", Special Key_cmd);
    ("command", Special Key_cmd);
    ("esc", Special Key_esc);
    ("space", Special Key_space);
    ("enter", Special Key_enter);
    ("tab", Special Key_tab);
    ("backspace", Special Key_backspace);
    ("delete", Special Key_delete);
    ("up", Special Key_up);
    ("down", Special Key_down);
    ("left", Special Key_left);
    ("right", Special Key_right);
    ("page_up", Special Key_page_up);
    ("page_down", Special Key_page_down);
    ("home", Special Key_home);
    ("end", Special Key_end);
    ("f1", Special Key_f1);
    ("f2", Special Key_f2);
    ("f3", Special Key_f3);
    ("f4", Special Key_f4);
    ("f5", Special Key_f5);
    ("f6", Special Key_f6);
    ("f7", Special Key_f7);
    ("f8", Special Key_f8);
    ("f9", Special Key_f9);
    ("f10", Special Key_f10);
    ("f11", Special Key_f11);
    ("f12", Special Key_f12) ].

(** ** The string methods used by the parser *)

(** [c.lower()] for one ASCII character. *)
Definition lower_char (c : ascii) : ascii :=
  let n := nat_of_ascii c in
  if ((65 <=? n) && (n <=? 90))%nat then ascii_of_nat (n + 32) else c.

(** [s.lower()] *)
Fixpoint lower (s : string) : string :=
  match s with
  | EmptyString => EmptyString
  | String c rest => String (lower_char c) (lower rest)
  end.

(** [s.split(sep)] for a one-character separator: never empty, and empty
    fields are kept. *)
Fixpoint split (sep : ascii) (s : string) : list string :=
  match s with
  | EmptyString => [EmptyString]
  | String c rest =>
      if Ascii.eqb c sep then EmptyString :: split sep rest
      else match split sep rest with
           | [] => [String c EmptyString]
           | field :: fields => String c field :: fields
           end
  end.

(** [c.isspace()] on ASCII: tab, line feed, vertical tab, form feed,
    carriage return, the four separators 28..31, and the blank. *)
Definition isspace (c : ascii) : bool :=
  let n := nat_of_ascii c in
  (((9 <=? n) && (n <=? 13)) || ((28 <=? n) && (n <=? 32)))%nat.

Fixpoint lstrip (s : string) : string :=
  match s with
  | EmptyString => EmptyString
  | String c rest => if isspace c then lstrip rest else s
  end.

(** Reversal of a string, used for [rstrip]. *)
Fixpoint rev_append_string (s acc : string) : string :=
  match s with
  | EmptyString => acc
  | String c rest => rev_append_string rest (String c acc)
  end.

Definition rev_string (s : string) : string := rev_append_string s EmptyString.

Definition rstrip (s : string) : string := rev_string (lstrip (rev_string s)).

(** [s.strip()] *)
Definition strip (s : string) : string := rstrip (lstrip s).

(** ** [HotkeyListener._parse_hotkey_string] *)

(** The tokens the loop runs over: [hotkey_str.lower().split("+")], each one
    stripped at the top of the loop body. *)
Definition hotkey_parts (hotkey_str : string) : list string :=
  map strip (split "+"%char (lower hotkey_str)).

(** One turn of the loop: the key object added for [part], or [None] where
    the source returns [None] from the function.
    [KeyCode.from_char] does not raise, so the first [except] is dead.
    The last branch looks the token up with [Key_getattr]. *)
Definition parse_part (part : string) : option key :=
  match assoc part _KEY_MAP with
  | Some k => Some k
  | None =>
      match part with
      | String c EmptyString => Some (KeyCode c)
      | _ => match Key_getattr part with
             | Some k => Some (Special k)
             | None => None
             end
      end
  end.

(** The loop, with the set built so far. *)
Fixpoint parse_loop (parts : list string) (keys : gset key)
  : option (gset key) :=
  match parts with
  | [] => Some keys
  | part :: rest =>
      match parse_part part with
      | Some k => parse_loop rest (keys ∪ {[ k ]})
      | None => None
      end
  end.

(** [_parse_hotkey_string]: the last line is [return keys if keys else None]. *)
Definition _parse_hotkey_string (hotkey_str : string) : option (gset key) :=
  match parse_loop (hotkey_parts hotkey_str) ∅ with
  | Some keys => if decide (keys = ∅) then None else Some keys
  | None => None
  end.

(** ** [HotkeyListener.__init__] *)

Local Open Scope list_scope.

(** A callable registered as workflow callback, known by a handle. *)
Inductive callable : Set := Callable (id : nat).

#[global] Instance callable_eq_dec : EqDecision callable.
Proof. solve_decision. Defined.

(** The instance attributes.  [_listener] is [None] or a pynput listener
    thread, of which the model keeps [is_alive()].  [_workflow_callback] is
    not assigned by [__init__]: the outer [None] is the missing attribute,
    [Some None] a falsy value stored by [_add_callback], [Some (Some f)] a
    callable.  [_trigger_combination] is never [None] on a constructed
    object ([__init__] raises first), so it is a set.  [_lock] guards
    [_is_running_query]; the model runs one method at a time. *)
Record HotkeyListener : Type := mkHotkeyListener {
  _current_keys : gset key;
  _exit_app_flag : bool;
  _is_running_query : bool;
  _listener : option bool;
  _trigger_combination : gset key;
  _exit_key_obj : key;
  _workflow_callback : option (option callable)
}.

Definition set_current_keys (ks : gset key) (s : HotkeyListener) :=
  mkHotkeyListener ks (_exit_app_flag s) (_is_running_query s) (_listener s)
    (_trigger_combination s) (_exit_key_obj s) (_workflow_callback s).

Definition set_exit_app_flag (b : bool) (s : HotkeyListener) :=
  mkHotkeyListener (_current_keys s) b (_is_running_query s) (_listener s)
    (_trigger_combination s) (_exit_key_obj s) (_workflow_callback s).

Definition set_is_running_query (b : bool) (s : HotkeyListener) :=
  mkHotkeyListener (_current_keys s) (_exit_app_flag s) b (_listener s)
    (_trigger_combination s) (_exit_key_obj s) (_workflow_callback s).

Definition set_listener (l : option bool) (s : HotkeyListener) :=
  mkHotkeyListener (_current_keys s) (_exit_app_flag s) (_is_running_query s)
    l (_trigger_combination s) (_exit_key_obj s) (_workflow_callback s).

Definition set_workflow_callback (cb : option callable) (s : HotkeyListener) :=
  mkHotkeyListener (_current_keys s) (_exit_app_flag s) (_is_running_query s)
    (_listener s) (_trigger_combination s) (_exit_key_obj s) (Some cb).

(** The three [ValueError]s of the constructor. *)
Inductive ValueError : Set :=
  | Error_parsing_trigger
  | Error_parsing_exit
  | Exit_must_be_single_key.

(** [__init__]: both strings are parsed, then the three checks run in the
    order of the source; [list(parsed_exit)[0]] of a one-element set is its
    element. *)
Definition __init__ (trigger_hotkey_str exit_hotkey_str : string)
  : ValueError + HotkeyListener :=
  let trigger := _parse_hotkey_string trigger_hotkey_str in
  let parsed_exit := _parse_hotkey_string exit_hotkey_str in
  match trigger with
  | None => inl Error_parsing_trigger
  | Some trigger_combination =>
      match parsed_exit with
      | None => inl Error_parsing_exit
      | Some exit_keys =>
          match elements exit_keys with
          | [exit_key] =>
              inr (mkHotkeyListener ∅ false false None
                     trigger_combination exit_key None)
          | _ => inl Exit_must_be_single_key
          end
      end
  end.

(** ** The parser and the constructor on any platform *)

(** What [getattr(keyboard.Key, part, None)] finds depends on the backend of
    pynput and on the Python version: a member can have several names, and
    the class has attributes that are not members (its methods, say).  So
    the parser and the constructor are also given for any lookup
    [getattr_Key]: [getattr_Key part] is what the last branch of the loop
    adds to the set for [part].  It is [Some (Special k)] where [part] is a
    name of the member [k], [Some (Attribute name)] where [part] finds
    another attribute that is true and can be put in a set, and [None]
    where the source returns [None]: the attribute is missing or false, or
    the [except Exception] clause of the branch catches an exception. *)
Section Platform.

Variable getattr_Key : string -> option key.

Definition parse_part_on (part : string) : option key :=
  match assoc part _KEY_MAP with
  | Some k => Some k
  | None =>
      match part with
      | String c EmptyString => Some (KeyCode c)
      | _ => getattr_Key part
      end
  end.

Fixpoint parse_loop_on (parts : list string) (keys : gset key)
  : option (gset key) :=
  match parts with
  | [] => Some keys
  | part :: rest =>
      match parse_part_on part with
      | Some k => parse_loop_on rest (keys ∪ {[ k ]})
      | None => None
      end
  end.

Definition _parse_hotkey_string_on (hotkey_str : string) : option (gset key) :=
  match parse_loop_on (hotkey_parts hotkey_str) ∅ with
  | Some keys => if decide (keys = ∅) then None else Some keys
  | None => None
  end.

Definition __init__on (trigger_hotkey_str exit_hotkey_str : string)
  : ValueError + HotkeyListener :=
  let trigger := _parse_hotkey_string_on trigger_hotkey_str in
  let parsed_exit := _parse_hotkey_string_on exit_hotkey_str in
  match trigger with
  | None => inl Error_parsing_trigger
  | Some trigger_combination =>
      match parsed_exit with
      | None => inl Error_parsing_exit
      | Some exit_keys =>
          match elements exit_keys with
          | [exit_key] =>
              inr (mkHotkeyListener ∅ false false None
                     trigger_combination exit_key None)
          | _ => inl Exit_must_be_single_key
          end
      end
  end.

End Platform.

(** The lookup of [parse_part]: the members under their own names. *)
Definition members_only (part : string) : option key :=
  match Key_getattr part with
  | Some k => Some (Special k)
  | None => None
  end.

(** ** The monad of methods: object state, effect log, exceptions *)

(** The calls that leave the object: thread creation, the pynput listener,
    the collaborators of the workflow, and the running flag as the workflow
    sets it. *)
Inductive effect : Set :=
  | ThreadStart (target : callable)
  | ListenerStart
  | ListenerStop
  | SetQueryRunning (status : bool)
  | TakeScreenshot
  | AnalyzeImage (path : string)
  | Speak (text : string)
  | CleanupFile (path : option string).

(** Python exceptions deriving from [Exception]. *)
Inductive exn : Set :=
  | AttributeError (attribute : string)
  | RuntimeError (message : string).

Inductive result (A : Type) : Type :=
  | Return (a : A)
  | Raise (e : exn).
Arguments Return {A} a.
Arguments Raise {A} e.

Definition M (A : Type) : Type :=
  HotkeyListener -> result A * HotkeyListener * list effect.

Definition ret {A} (a : A) : M A := fun s => (Return a, s, []).

Definition raise {A} (e : exn) : M A := fun s => (Raise e, s, []).

Definition bind {A B} (m : M A) (f : A -> M B) : M B :=
  fun s =>
    match m s with
    | (Return a, s1, log1) =>
        match f a s1 with (r, s2, log2) => (r, s2, log1 ++ log2) end
    | (Raise e, s1, log1) => (Raise e, s1, log1)
    end.

Definition get : M HotkeyListener := fun s => (Return s, s, []).

Definition modify (f : HotkeyListener -> HotkeyListener) : M unit :=
  fun s => (Return tt, f s, []).

Definition emit (e : effect) : M unit := fun s => (Return tt, s, [e]).

(** [try: body except Exception: handler] *)
Definition try_except {A} (body : M A) (handler : exn -> M A) : M A :=
  fun s =>
    match body s with
    | (Return a, s1, log1) => (Return a, s1, log1)
    | (Raise e, s1, log1) =>
        match handler e s1 with (r, s2, log2) => (r, s2, log1 ++ log2) end
    end.

(** [try: body finally: cleanup]: the cleanup runs on both exits; an
    exception of the body is raised again after it, unless the cleanup
    raises itself. *)
Definition try_finally {A} (body : M A) (cleanup : M unit) : M A :=
  fun s =>
    match body s with
    | (r, s1, log1) =>
        match cleanup s1 with
        | (Return _, s2, log2) => (r, s2, log1 ++ log2)
        | (Raise e, s2, log2) => (Raise e, s2, log1 ++ log2)
        end
    end.

Declare Scope py_scope.
Delimit Scope py_scope with py.
Notation "x <- m ;; k" := (bind m (fun x => k))
  (at level 100, m at next level, right associativity) : py_scope.
Notation "m ;; k" := (bind m (fun _ => k))
  (at level 100, right associativity) : py_scope.
Local Open Scope py_scope.

Definition outcome {A} (r : result A * HotkeyListener * list effect) : result A :=
  fst (fst r).
Definition final {A} (r : result A * HotkeyListener * list effect)
  : HotkeyListener := snd (fst r).
Definition effects {A} (r : result A * HotkeyListener * list effect)
  : list effect := snd r.

(** ** The methods of [HotkeyListener] *)

Definition _add_callback (callback : option callable) : M unit :=
  modify (set_workflow_callback callback).

(** [start]: [start_ok] says whether creating and starting the pynput
    listener succeeds; on failure the exception is caught and the method
    returns [False]. *)
Definition start (start_ok : bool) : M bool :=
  s <- get ;;
  match _listener s with
  | Some true => ret true
  | _ =>
      if start_ok then
        modify (set_listener (Some true)) ;; emit ListenerStart ;; ret true
      else
        modify (set_listener None) ;; ret false
  end.

(** [stop]: an exception of [self._listener.stop()] is caught inside. *)
Definition stop : M unit :=
  s <- get ;;
  match _listener s with
  | Some alive =>
      (if alive then emit ListenerStop else ret tt) ;;
      modify (set_listener None)
  | None => ret tt
  end.

Definition is_exit_requested : M bool :=
  s <- get ;; ret (_exit_app_flag s).

Definition request_exit : M unit :=
  exit <- is_exit_requested ;;
  if negb exit then
    modify (set_exit_app_flag true) ;; stop
  else ret tt.

Definition set_query_running (status : bool) : M unit :=
  emit (SetQueryRunning status) ;; modify (set_is_running_query status).

Definition _is_query_running_internal : M bool :=
  s <- get ;; ret (_is_running_query s).

(** Reading [self._workflow_callback]: an attribute that was never assigned
    raises [AttributeError]. *)
Definition read_workflow_callback : M (option callable) :=
  s <- get ;;
  match _workflow_callback s with
  | Some cb => ret cb
  | None => raise (AttributeError "_workflow_callback")
  end.

Definition _normalize_key (k : key) : key :=
  match k with
  | Special Key_shift_l | Special Key_shift_r => Special Key_shift
  | Special Key_ctrl_l | Special Key_ctrl_r => Special Key_ctrl
  | Special Key_alt_l | Special Key_alt_r | Special Key_alt_gr =>
      Special Key_alt
  | Special Key_cmd_l | Special Key_cmd_r => Special Key_cmd
  | _ => k
  end.

(** What a pynput callback returns: [False] stops the listener, [True] and
    [None] let it go on. *)
Inductive pyret : Set := PyFalse | PyTrue | PyNone.

Definition halts (r : pyret) : bool :=
  match r with PyFalse => true | _ => false end.

(** The [try] block of [_on_press]. *)
Definition _on_press_body (k : key) : M pyret :=
  let norm_key := _normalize_key k in
  modify (fun s => set_current_keys (_current_keys s ∪ {[ norm_key ]}) s) ;;
  s <- get ;;
  (if decide (_trigger_combination s ⊆ _current_keys s) then
     running <- _is_query_running_internal ;;
     if negb running then
       callback <- read_workflow_callback ;;
       match callback with
       | Some target => emit (ThreadStart target)
       | None => ret tt
       end
     else ret tt
   else ret tt) ;;
  if decide (norm_key = _exit_key_obj s) then
    request_exit ;; ret PyFalse
  else ret PyNone.

Definition _on_press (k : key) : M pyret :=
  exit <- is_exit_requested ;;
  if exit then ret PyFalse
  else try_except (_on_press_body k) (fun _ => ret PyTrue).

(** The [try] block of [_on_release]; [set.discard] ignores an absent key. *)
Definition _on_release_body (k : key) : M pyret :=
  let norm_key := _normalize_key k in
  modify (fun s => set_current_keys (_current_keys s ∖ {[ norm_key ]}) s) ;;
  ret PyNone.

Definition _on_release (k : key) : M pyret :=
  exit <- is_exit_requested ;;
  if exit then ret PyFalse
  else try_except (_on_release_body k) (fun _ => ret PyTrue).

(** ** The calls of a listener's life *)

(** [wait_for_exit] blocks on the flag and [is_exit_requested] reads it;
    neither writes to the listener. *)
Definition wait_for_exit : M unit := ret tt.

(** The public methods and the two pynput callbacks, as calls. *)
Inductive operation : Set :=
  | Call_add_callback (callback : option callable)
  | Call_start (start_ok : bool)
  | Call_stop
  | Call_request_exit
  | Call_wait_for_exit
  | Call_is_exit_requested
  | Call_set_query_running (status : bool)
  | Call_on_press (k : key)
  | Call_on_release (k : key).

Definition call (op : operation) : M unit :=
  match op with
  | Call_add_callback callback => _add_callback callback
  | Call_start start_ok => start start_ok ;; ret tt
  | Call_stop => stop
  | Call_request_exit => request_exit
  | Call_wait_for_exit => wait_for_exit
  | Call_is_exit_requested => is_exit_requested ;; ret tt
  | Call_set_query_running status => set_query_running status
  | Call_on_press k => _on_press k ;; ret tt
  | Call_on_release k => _on_release k ;; ret tt
  end.

(** The listener after a sequence of calls. *)
Definition after_calls (ops : list operation) (s : HotkeyListener)
  : HotkeyListener :=
  foldl (fun s op => final (call op s)) s ops.

(** * The workflow callback: [run_analysis_workflow] *)

(** [config.ERROR_PREFIX] and [config.BLOCKED_PREFIX] *)
Definition ERROR_PREFIX : string := "Error:".
Definition BLOCKED_PREFIX : string := "Blocked".

(** What the collaborators of one run answer.  The capture, the analysis
    and the speech are injected or imported objects: each call returns or
    raises.  [speaker_present] is the truth of [self.speaker].  The workflow
    runs on its own thread: [exit_meanwhile i] says that another thread has
    called [request_exit] by the time the workflow reads the exit flag for
    the [i]-th time. *)
Record World : Type := mkWorld {
  screenshot_result : result (option string);
  analysis_result : result string;
  speaker_present : bool;
  speak_result : result bool;
  exit_meanwhile : nat -> bool
}.

(** The answer of a collaborator, as a step of the method. *)
Definition answer {A} (r : result A) : M A := fun s => (r, s, []).

(** Truth of [screenshot_path]: [None] and the empty string are false. *)
Definition truthy_path (path : option string) : bool :=
  match path with
  | Some (String _ _) => true
  | _ => false
  end.

(** [self.listener.is_exit_requested()] at the [i]-th read of the run, after
    what the other threads did to the flag. *)
Definition exit_requested_at (w : World) (i : nat) : M bool :=
  (if exit_meanwhile w i
   then modify (fun s => final (request_exit s))
   else ret tt) ;;
  is_exit_requested.

(** [utils.cleanup_file(file_path)]: the removal is attempted inside for a
    path that is true and exists, and its exception is caught there; the
    model records the call. *)
Definition cleanup_file (file_path : option string) : M unit :=
  emit (CleanupFile file_path).

(** [try: x = first(); rest(x)  except Exception: handler  finally:
    cleanup(x)] for a local [x] that holds [init] until [first] has
    returned: the shape of the method, whose local [screenshot_path] is
    [None] before the [try] and is read by the [finally]. *)
Definition try_local {X A} (init : X) (first : M X) (rest : X -> M A)
    (handler : exn -> M A) (cleanup : X -> M unit) : M A :=
  fun s =>
    match first s with
    | (Return x, s1, log1) =>
        match try_finally (try_except (rest x) handler) (cleanup x) s1 with
        | (r, s2, log2) => (r, s2, log1 ++ log2)
        end
    | (Raise e, s1, log1) =>
        match try_finally (handler e) (cleanup init) s1 with
        | (r, s2, log2) => (r, s2, log1 ++ log2)
        end
    end.

(** The [try] block up to the assignment of [screenshot_path]. *)
Definition workflow_capture (w : World) : M (option string) :=
  set_query_running true ;;
  emit TakeScreenshot ;;
  answer (screenshot_result w).

(** The [try] block after the assignment; every [return] of the source ends
    the block. *)
Definition workflow_steps (w : World) (screenshot_path : option string)
  : M unit :=
  if negb (truthy_path screenshot_path) then ret tt
  else
    exit1 <- exit_requested_at w 1 ;;
    if exit1 then ret tt
    else
      emit (AnalyzeImage (default "" screenshot_path)) ;;
      analysis <- answer (analysis_result w) ;;
      exit2 <- exit_requested_at w 2 ;;
      if exit2 then ret tt
      else if speaker_present w
                && negb (String.prefix ERROR_PREFIX analysis)
                && negb (String.prefix BLOCKED_PREFIX analysis)
      then
        emit (Speak analysis) ;;
        success <- answer (speak_result w) ;;
        exit3 <- exit_requested_at w 3 ;;
        ret tt
      else ret tt.

(** The [finally] block. *)
Definition workflow_finally (screenshot_path : option string) : M unit :=
  cleanup_file screenshot_path ;;
  set_query_running false ;;
  exit <- is_exit_requested ;;
  ret tt.

Definition run_analysis_workflow (w : World) : M unit :=
  try_local None (workflow_capture w) (workflow_steps w)
    (fun _ => ret tt) workflow_finally.

(** * The vocabulary of the statements *)

(** Observations of a run, and the concrete listeners and event sequences
    on which the theorems below are exercised. *)

(** The tokens that no branch of the loop accepts: not a name of
    [_KEY_MAP], not one character long, not a member of [Key]. *)
Definition unrecognized (part : string) : Prop :=
  assoc part _KEY_MAP = None
  /\ String.length part ≠ 1
  /\ Key_getattr part = None.

(** The same on any platform: the lookup finds nothing of use. *)
Definition unrecognized_on (getattr_Key : string -> option key)
    (part : string) : Prop :=
  assoc part _KEY_MAP = None
  /\ String.length part ≠ 1
  /\ getattr_Key part = None.

(** A lookup with aliases and with an attribute that is no member: the left
    variant of each modifier is the modifier itself (as in the X backend of
    pynput), and the class has the method [mro]. *)
Definition aliasing_lookup (part : string) : option key :=
  match assoc part [ ("shift_l", Special Key_shift);
                     ("ctrl_l", Special Key_ctrl);
                     ("alt_l", Special Key_alt);
                     ("cmd_l", Special Key_cmd);
                     ("mro", Attribute "mro") ] with
  | Some k => Some k
  | None => members_only part
  end.

(** [c.isprintable()] on ASCII: the characters from the blank to the
    tilde. *)
Definition isprintable (c : ascii) : bool :=
  let n := nat_of_ascii c in ((32 <=? n) && (n <=? 126))%nat.

(** The modifier families, and the family of a key, in the words of the
    claim on normalization: left and right shift belong to shift, left and
    right control to control, left, right and graph alt to alt, left and
    right command to command; the key that names the family belongs to
    it. *)
Inductive modifier : Set := Shift | Control | Alt | Command.

Definition claimed_family (k : key) : option modifier :=
  match k with
  | Special Key_shift | Special Key_shift_l | Special Key_shift_r => Some Shift
  | Special Key_ctrl | Special Key_ctrl_l | Special Key_ctrl_r => Some Control
  | Special Key_alt | Special Key_alt_l | Special Key_alt_r
  | Special Key_alt_gr => Some Alt
  | Special Key_cmd | Special Key_cmd_l | Special Key_cmd_r => Some Command
  | _ => None
  end.

Definition claimed_normal_form (m : modifier) : key :=
  match m with
  | Shift => Special Key_shift
  | Control => Special Key_ctrl
  | Alt => Special Key_alt
  | Command => Special Key_cmd
  end.

(** The workers started by a run: the targets of its [ThreadStart]s. *)
Definition workers_spawned (log : list effect) : list callable :=
  omap (fun e => match e with ThreadStart f => Some f | _ => None end) log.

(** The keys held once the handler has added the pressed one: the set the
    trigger combination is compared with. *)
Definition keys_after_press (k : key) (s : HotkeyListener) : gset key :=
  _current_keys s ∪ {[ _normalize_key k ]}.

(** The effects of [stop]. *)
Definition stop_effects (s : HotkeyListener) : list effect :=
  match _listener s with Some true => [ListenerStop] | _ => [] end.

(** Every pressed key is its own normal form. *)
Definition keys_normalized (s : HotkeyListener) : Prop :=
  forall k, k ∈ _current_keys s -> _normalize_key k = k.

(** The shape the two handlers share: halt if an exit was requested, else
    run the body and answer [True] to any exception. *)
Definition guarded (body : M pyret) : M pyret :=
  exit <- is_exit_requested ;;
  if exit then ret PyFalse
  else try_except body (fun _ => ret PyTrue).

(** The value of [screenshot_path] when the [finally] block runs. *)
Definition screenshot_path_of (w : World) : option string :=
  match screenshot_result w with
  | Return path => path
  | Raise _ => None
  end.

(** The combination of [shift+space] and the listener that the constructor
    builds from the configured strings [shift+space] and [esc]. *)
Definition shift_space : gset key :=
  list_to_set [Special Key_shift; Special Key_space].

Definition fresh_listener : HotkeyListener :=
  mkHotkeyListener ∅ false false None shift_space (Special Key_esc) None.

(** The same listener once [main] has registered the workflow and started
    listening, with shift held. *)
Definition workflow : callable := Callable 0.

Definition listening (running : bool) : HotkeyListener :=
  mkHotkeyListener {[ Special Key_shift ]} false running (Some true)
    shift_space (Special Key_esc) (Some (Some workflow)).

(** A listener on which [_add_callback] was never called: shift is held
    and nothing runs. *)
Definition no_callback : HotkeyListener :=
  mkHotkeyListener {[ Special Key_shift ]} false false (Some true)
    shift_space (Special Key_esc) None.

(** A listener whose exit key belongs to its trigger: it is built from
    [ctrl+esc] and [esc]; then the workflow is registered, listening starts
    and the left ctrl goes down. *)
Definition ctrl_esc : gset key :=
  list_to_set [Special Key_ctrl; Special Key_esc].

Definition ctrl_esc_fresh : HotkeyListener :=
  mkHotkeyListener ∅ false false None ctrl_esc (Special Key_esc) None.

Definition ctrl_held : HotkeyListener :=
  after_calls
    [ Call_add_callback (Some workflow); Call_start true;
      Call_on_press (Special Key_ctrl_l) ]
    ctrl_esc_fresh.

(** Both shifts go down, the right one goes up, then the right alt goes
    down. *)
Definition both_shifts : list operation :=
  [ Call_on_press (Special Key_shift_l); Call_on_press (Special Key_shift_r);
    Call_on_release (Special Key_shift_r); Call_on_press (Special Key_alt_gr) ].

(** No other thread requests an exit while the workflow runs. *)
Definition quiet (i : nat) : bool := false.

(** * Further vocabulary: strings *)

(** [c.upper()] for one ASCII character, and [s.upper()]. *)
Definition upper_char (c : ascii) : ascii :=
  let n := nat_of_ascii c in
  if ((97 <=? n) && (n <=? 122))%nat then ascii_of_nat (n - 32) else c.

Fixpoint upper (s : string) : string :=
  match s with
  | EmptyString => EmptyString
  | String c rest => String (upper_char c) (upper rest)
  end.

(** [sep.join(fields)] for a one-character separator. *)
Fixpoint join (sep : ascii) (fields : list string) : string :=
  match fields with
  | [] => EmptyString
  | [field] => field
  | field :: rest => String.append field (String sep (join sep rest))
  end.

(** The characters of a string, in order. *)
Fixpoint chars (s : string) : list ascii :=
  match s with
  | EmptyString => []
  | String c rest => c :: chars rest
  end.

(** A string of 7-bit characters, on which [lower], [upper], [strip] and
    the length are those of Python. *)
Definition is_ascii (s : string) : bool :=
  forallb (fun c => (nat_of_ascii c <? 128)%nat) (chars s).

(** A string of white space only. *)
Definition blank (s : string) : Prop := Forall (fun c => isspace c = true) (chars s).

(** [lstrip] on the characters. *)
Fixpoint skip_spaces (l : list ascii) : list ascii :=
  match l with
  | [] => []
  | c :: rest => if isspace c then skip_spaces rest else l
  end.

(** * Further vocabulary: runs of calls *)

(** The presses and releases among the calls. *)
Definition is_key_event (op : operation) : bool :=
  match op with
  | Call_on_press _ | Call_on_release _ => true
  | _ => false
  end.

(** The effects of a sequence of calls, in order. *)
Fixpoint effects_of_calls (ops : list operation) (s : HotkeyListener)
  : list effect :=
  match ops with
  | [] => []
  | op :: rest =>
      effects (call op s) ++ effects_of_calls rest (final (call op s))
  end.

(** A listener whose trigger holds the right shift: it is built from
    [shift_r+a] and [esc] where the right shift is a member of its own. *)
Definition shift_r_a : gset key :=
  list_to_set [Special Key_shift_r; KeyCode "a"].

Definition right_shift_listener : HotkeyListener :=
  mkHotkeyListener ∅ false false None shift_r_a (Special Key_esc) None.

(** The workflow is registered, listening starts, and the right shift and
    the letter go down and up twice. *)
Definition right_shift_presses : list operation :=
  [ Call_add_callback (Some workflow); Call_start true;
    Call_on_press (Special Key_shift_r); Call_on_press (KeyCode "a");
    Call_on_release (KeyCode "a"); Call_on_press (KeyCode "a");
    Call_on_release (Special Key_shift_r) ].

(** A listener whose exit key is the right ctrl: it is built from [a] and
    [ctrl_r] where the right ctrl is a member of its own. *)
Definition right_ctrl_listener : HotkeyListener :=
  mkHotkeyListener ∅ false false None {[ KeyCode "a" ]}
    (Special Key_ctrl_r) None.

(** Both ctrl keys go down and up while the listener runs. *)
Definition ctrl_presses : list operation :=
  [ Call_start true; Call_on_press (Special Key_ctrl_r);
    Call_on_press (Special Key_ctrl_l); Call_on_release (Special Key_ctrl_r);
    Call_on_press (Special Key_ctrl) ].

(** The listener of [shift+space] and [esc] with both trigger keys held,
    the workflow registered and nothing marked as running. *)
Definition chord_held : HotkeyListener :=
  mkHotkeyListener shift_space false false (Some true)
    shift_space (Special Key_esc) (Some (Some workflow)).

(** * Further vocabulary: the steps of the workflow *)

(** The listener after the [i]-th read of the exit flag by the workflow. *)
Definition after_exit_read (w : World) (i : nat) (s : HotkeyListener)
  : HotkeyListener :=
  if exit_meanwhile w i then final (request_exit s) else s.

(** The calls between the capture and the [finally] block, for the path
    captured and the exit flag as it was when the workflow began. *)
Definition steps_log (w : World) (path : option string) (exit_before : bool)
  : list effect :=
  if negb (truthy_path path) || exit_before || exit_meanwhile w 1 then []
  else
    AnalyzeImage (default "" path)
    :: match analysis_result w with
       | Return text =>
           if negb (exit_meanwhile w 2) && speaker_present w
              && negb (String.prefix ERROR_PREFIX text)
              && negb (String.prefix BLOCKED_PREFIX text)
           then [Speak text]
           else []
       | Raise _ => []
       end.

(** Two listeners that differ at most in the exit flag and in the pynput
    listener: what a call of [request_exit] can change. *)
Definition same_but_exit (s s' : HotkeyListener) : Prop :=
  _current_keys s' = _current_keys s
  /\ _is_running_query s' = _is_running_query s
  /\ _trigger_combination s' = _trigger_combination s
  /\ _exit_key_obj s' = _exit_key_obj s
  /\ _workflow_callback s' = _workflow_callback s.

(** * The analyzer: [gemini_analyzer.py] *)

(** A call into a library that returns, or raises an exception of which
    the code reads only the text [str(e)]. *)
Inductive attempt (A : Type) : Type :=
  | Done (a : A)
  | Failed (message : string).
Arguments Done {A} a.
Arguments Failed {A} message.

(** What [_parse_response] reads of a response: [response.candidates], and
    for each candidate the text [candidate.content.parts[0].text]; the name
    of [response.prompt_feedback.block_reason], [None] when the feedback or
    the reason is false.  Each reading can raise. *)
Record Response : Type := mkResponse {
  candidates : attempt (list (attempt string));
  block_reason : attempt (option string)
}.

(** [GeminiAnalyzer._parse_response]: the whole body is one [try]. *)
Definition _parse_response (response : Response) : string :=
  let failed e := ERROR_PREFIX +:+ " Failed to parse Gemini response: " +:+ e in
  match candidates response with
  | Failed e => failed e
  | Done [] =>
      match block_reason response with
      | Failed e => failed e
      | Done (Some reason) =>
          BLOCKED_PREFIX +:+ " due to safety concerns (" +:+ reason +:+ ")."
      | Done None =>
          ERROR_PREFIX +:+ " Gemini returned no candidates in response."
      end
  | Done (candidate :: _) =>
      match candidate with
      | Failed e => failed e
      | Done analysis_text => strip analysis_text
      end
  end.

(** [GeminiAnalyzer.analyze_image]: [api] is what creating the model,
    opening the image and [generate_content] come to; an exception is
    answered with its text, [return str(e)]. *)
Definition analyze_image (api : attempt Response) : string :=
  match api with
  | Done response => _parse_response response
  | Failed e => e
  end.

(** Truth of an optional string such as an API key. *)
Definition truthy (value : option string) : bool :=
  match value with
  | Some (String _ _) => true
  | _ => false
  end.

(** [GeminiAnalyzer.analyze_text] *)
Definition analyze_text (api_key : option string) (text_content : string)
    (api : attempt Response) : string :=
  if negb (truthy api_key) then
    ERROR_PREFIX +:+ " Cannot analyze text: GOOGLE_API_KEY is missing."
  else if negb (truthy (Some text_content))
          || negb (truthy (Some (strip text_content))) then
    ERROR_PREFIX +:+ " No text content provided for analysis."
  else
    match api with
    | Done response => _parse_response response
    | Failed e => ERROR_PREFIX +:+ " Failed to analyze text: " +:+ e
    end.

(** The test of the workflows on an analysis: it starts with the error
    prefix or with the blocked prefix. *)
Definition reports_failure (text : string) : bool :=
  String.prefix ERROR_PREFIX text || String.prefix BLOCKED_PREFIX text.

(** * The text workflow: [main_text.py] *)

(** [TextAnalyzerApp._get_clipboard_text]: [paste] is what
    [pyperclip.paste()] comes to, with [None] for a value that is not a
    string; both [except] clauses return [None]. *)
Definition _get_clipboard_text (paste : attempt (option string))
  : option string :=
  match paste with
  | Done (Some text) => if truthy (Some (strip text)) then Some text else None
  | Done None => None
  | Failed _ => None
  end.

(** What the collaborators of one run of the text workflow answer; the
    analyzer is the [GeminiAnalyzer] of this repository. *)
Record TextWorld : Type := mkTextWorld {
  paste_result : attempt (option string);
  google_api_key : option string;
  gemini_result : attempt Response;
  text_speaker_present : bool;
  text_speak_result : result bool;
  text_exit_meanwhile : nat -> bool
}.

(** The [i]-th read of the exit flag, after what the other threads did. *)
Definition exit_read (meanwhile : nat -> bool) (i : nat) : M bool :=
  (if meanwhile i
   then modify (fun s => final (request_exit s))
   else ret tt) ;;
  is_exit_requested.

(** The [try] block of [TextAnalyzerApp.run_analysis_workflow] from the
    first read of the exit flag on, for the text taken from the clipboard. *)
Definition text_workflow_analysis (w : TextWorld) (clipboard_text : string)
  : M unit :=
  exit1 <- exit_read (text_exit_meanwhile w) 1 ;;
  if exit1 then ret tt
  else
    let analysis :=
      analyze_text (google_api_key w) clipboard_text (gemini_result w) in
    exit2 <- exit_read (text_exit_meanwhile w) 2 ;;
    if exit2 then ret tt
    else if text_speaker_present w
              && negb (String.prefix ERROR_PREFIX analysis)
              && negb (String.prefix BLOCKED_PREFIX analysis)
    then
      emit (Speak analysis) ;;
      success <- answer (text_speak_result w) ;;
      exit3 <- exit_read (text_exit_meanwhile w) 3 ;;
      ret tt
    else ret tt.

(** The whole [try] block; the short sleep before the clipboard is read is
    not modelled. *)
Definition text_workflow_steps (w : TextWorld) : M unit :=
  set_query_running true ;;
  match _get_clipboard_text (paste_result w) with
  | None => ret tt
  | Some clipboard_text =>
      if negb (truthy (Some clipboard_text)) then ret tt
      else text_workflow_analysis w clipboard_text
  end.

(** The [finally] block of the text workflow. *)
Definition text_workflow_finally : M unit :=
  set_query_running false ;;
  exit <- is_exit_requested ;;
  ret tt.

Definition run_text_workflow (w : TextWorld) : M unit :=
  try_finally (try_except (text_workflow_steps w) (fun _ => ret tt))
    text_workflow_finally.

(** What the text workflow speaks, for the text taken from the clipboard
    and the exit flag as it was when the workflow began. *)
Definition text_analysis_log (w : TextWorld) (clipboard_text : string)
    (exit_before : bool) : list effect :=
  let analysis :=
    analyze_text (google_api_key w) clipboard_text (gemini_result w) in
  if negb exit_before
     && negb (text_exit_meanwhile w 1) && negb (text_exit_meanwhile w 2)
     && text_speaker_present w && negb (reports_failure analysis)
  then [Speak analysis]
  else [].

(** The calls of the [try] block after [set_query_running(True)]. *)
Definition text_steps_log (w : TextWorld) (exit_before : bool) : list effect :=
  match _get_clipboard_text (paste_result w) with
  | None => []
  | Some clipboard_text => text_analysis_log w clipboard_text exit_before
  end.


(** * The application: [config.validate_config] and [run] *)

(** [config.REQUIRED_ENV_VARS] *)
Definition REQUIRED_ENV_VARS : list string :=
  ["GOOGLE_API_KEY"; "ELEVENLABS_API_KEY"].

(** [config.validate_config]: [globals] is [globals().get] of the module,
    and the list comprehension keeps the names whose value is false. *)
Definition validate_config (globals : string -> option string) : bool :=
  let missing_keys :=
    List.filter (fun var => negb (truthy (globals var))) REQUIRED_ENV_VARS in
  match missing_keys with
  | [] => true
  | _ => false
  end.

(** One sleep of the main loop: meanwhile the other threads (the pynput
    listener, a worker, a signal handler) make calls on the listener, or the
    sleep is cut short by [KeyboardInterrupt] or by another exception. *)
Inductive tick : Set :=
  | Sleep (others : list operation)
  | KeyboardInterrupt
  | Crash (e : exn).

(** How the loop [while not is_exit_requested(): sleep] ends; [Out_of_ticks]
    stands for a loop that is still going when the given ticks are over. *)
Inductive loop_end : Set := Exit_seen | Interrupted | Out_of_ticks.

Fixpoint main_loop (ticks : list tick) (s : HotkeyListener)
  : loop_end * HotkeyListener * list effect :=
  if _exit_app_flag s then (Exit_seen, s, [])
  else
    match ticks with
    | [] => (Out_of_ticks, s, [])
    | Sleep others :: rest =>
        match main_loop rest (after_calls others s) with
        | (e, s', log) => (e, s', effects_of_calls others s ++ log)
        end
    | KeyboardInterrupt :: _ => (Interrupted, s, [])
    | Crash _ :: _ => (Interrupted, s, [])
    end.

(** How [run] ends: [sys.exit(code)], a return, or still in the loop. *)
Inductive run_end : Set := SystemExit (code : nat) | Returned | Still_running.

(** [ScreenshotAnalyzerApp.run] and [TextAnalyzerApp.run], which are the
    same: [validate_config], [start_listening] (which exits when [start]
    returns [False]), the main loop, [request_exit] in both [except]
    clauses, and [stop_listening] in the [finally]. *)
Definition run (globals : string -> option string) (start_ok : bool)
    (ticks : list tick) (s : HotkeyListener)
  : run_end * HotkeyListener * list effect :=
  if negb (validate_config globals) then (SystemExit 1, s, [])
  else
    match start start_ok s with
    | (Return true, s1, log1) =>
        match main_loop ticks s1 with
        | (Out_of_ticks, s2, log2) => (Still_running, s2, log1 ++ log2)
        | (Exit_seen, s2, log2) =>
            (Returned, final (stop s2), log1 ++ log2 ++ effects (stop s2))
        | (Interrupted, s2, log2) =>
            let s3 := final (request_exit s2) in
            (Returned, final (stop s3),
             log1 ++ log2 ++ effects (request_exit s2) ++ effects (stop s3))
        end
    | (_, s1, log1) => (SystemExit 1, s1, log1)
    end.




(** * The screenshot file: [utils.py] *)

Module utils.

(** What one capture comes to: whether [pyautogui.screenshot()] returns,
    the name of the file that [NamedTemporaryFile(delete=False)] creates
    ([None] if it raises), and whether [screenshot.save] returns. *)
Record Capture : Type := mkCapture {
  grab_ok : bool;
  temp_file : option string;
  save_ok : bool
}.

(** [utils.take_screenshot] on the set of existing files: the path it
    returns and the files afterwards.  Every exception is caught and
    answered with [None]; the temporary file is created before the image
    is saved to it, and nothing deletes it. *)
Definition take_screenshot (c : Capture) (files : gset string)
  : option string * gset string :=
  if negb (grab_ok c) then (None, files)
  else
    match temp_file c with
    | None => (None, files)
    | Some screenshot_path =>
        if save_ok c then (Some screenshot_path, files ∪ {[ screenshot_path ]})
        else (None, files ∪ {[ screenshot_path ]})
    end.

(** [utils.cleanup_file] on the set of existing files: [os.remove] is tried
    for a path that is true and exists; when it raises ([remove_ok] false)
    the exception is caught and the file stays. *)
Definition cleanup_file (remove_ok : bool) (file_path : option string)
    (files : gset string) : gset string :=
  match file_path with
  | Some path =>
      if truthy file_path && bool_decide (path ∈ files)
      then (if remove_ok then files ∖ {[ path ]} else files)
      else files
  | None => files
  end.

(** The files after a capture and the cleanup of the path it returned: what
    the workflow does with the two functions. *)
Definition capture_then_cleanup (c : Capture) (remove_ok : bool)
    (files : gset string) : gset string :=
  let '(screenshot_path, files1) := take_screenshot c files in
  cleanup_file remove_ok screenshot_path files1.

End utils.

(** The files after the calls of a log: [take_screenshot] and
    [cleanup_file] are the calls of the workflow that touch them. *)
Fixpoint files_after (c : utils.Capture) (remove_ok : bool)
    (log : list effect) (files : gset string) : gset string :=
  match log with
  | [] => files
  | TakeScreenshot :: rest =>
      files_after c remove_ok rest (snd (utils.take_screenshot c files))
  | CleanupFile file_path :: rest =>
      files_after c remove_ok rest (utils.cleanup_file remove_ok file_path files)
  | _ :: rest => files_after c remove_ok rest files
  end.

(** A run of the workflow in which [take_screenshot] answers as the capture
    [c] makes it, the analysis returns an answer and the speech succeeds. *)
Definition world_of (c : utils.Capture) (files : gset string) : World :=
  mkWorld (Return (fst (utils.take_screenshot c files)))
    (Return "Option 2 is correct") true (Return true) quiet.

(** * Properties of the parser and of the constructor *)

Example parse_shift_space :
  elements <$> _parse_hotkey_string "shift+space"
  = Some [Special Key_shift; Special Key_space].
Proof. vm_compute. reflexivity. Qed.

(** The loop adds the keys of the tokens, in order, to the set it was
    given; it fails where the first token fails. *)
Lemma parse_loop_mapM (parts : list string) (keys : gset key) :
  parse_loop parts keys
  = (fun l => keys ∪ list_to_set l) <$> mapM parse_part parts.
Proof.
  revert keys. induction parts as [| part rest IH]; intros keys; simpl.
  - f_equal. set_solver.
  - destruct (parse_part part) as [k |]; simpl; [| reflexivity].
    rewrite IH. destruct (mapM parse_part rest) as [l |]; simpl; [| reflexivity].
    f_equal. set_solver.
Qed.

Lemma split_not_nil (sep : ascii) (s : string) : split sep s ≠ [].
Proof.
  destruct s as [| c rest]; simpl; [done |].
  destruct (Ascii.eqb c sep); [done |].
  destruct (split sep rest); done.
Qed.

Lemma hotkey_parts_not_nil (s : string) : hotkey_parts s ≠ [].
Proof.
  unfold hotkey_parts. intros E. apply fmap_nil_inv in E.
  exact (split_not_nil _ _ E).
Qed.

(** A successful parse is the set of the keys of the tokens. *)
Lemma parse_Some (s : string) (ks : gset key) :
  _parse_hotkey_string s = Some ks
  <-> exists l, mapM parse_part (hotkey_parts s) = Some l /\ ks = list_to_set l.
Proof.
  unfold _parse_hotkey_string. rewrite parse_loop_mapM.
  destruct (mapM parse_part (hotkey_parts s)) as [l |] eqn:E; simpl.
  - assert (Hne : (∅ ∪ list_to_set l : gset key) ≠ ∅).
    { apply mapM_Some_1, Forall2_length in E.
      destruct l as [| k l]; simpl in *.
      - destruct (hotkey_parts s) eqn:P; [| done].
        by apply hotkey_parts_not_nil in P.
      - set_solver. }
    destruct (decide _) as [Hemp | _]; [contradiction |].
    split.
    + intros [= <-]. exists l. split; [reflexivity | set_solver].
    + intros (l' & [= <-] & ->). f_equal. set_solver.
  - split; [discriminate |]. intros (l & H & _). discriminate.
Qed.

(** A failed parse has a token that no branch of the loop accepts. *)
Lemma parse_None (s : string) :
  _parse_hotkey_string s = None
  <-> exists part, part ∈ hotkey_parts s /\ parse_part part = None.
Proof.
  split.
  - intros H. destruct (mapM parse_part (hotkey_parts s)) as [l |] eqn:E.
    + assert (P : _parse_hotkey_string s = Some (list_to_set l)).
      { apply parse_Some. eauto. }
      congruence.
    + clear H. induction (hotkey_parts s) as [| part rest IH]; simpl in E.
      * discriminate.
      * destruct (parse_part part) as [k |] eqn:Pk.
        -- destruct (mapM parse_part rest) as [l |]; [discriminate |].
           destruct (IH eq_refl) as (p & Hin & Hp).
           exists p. split; [now right | exact Hp].
        -- exists part. split; [now left | exact Pk].
  - intros (part & Hin & Hp).
    destruct (_parse_hotkey_string s) as [ks |] eqn:E; [| reflexivity].
    apply parse_Some in E as (l & El & _).
    apply mapM_Some_1 in El. revert Hin.
    induction El as [| p k ps l' Hpk _ IH]; intros Hin.
    + inversion Hin.
    + apply elem_of_cons in Hin as [-> | Hin]; [congruence | exact (IH Hin)].
Qed.

Lemma parse_part_None (part : string) :
  parse_part part = None <-> unrecognized part.
Proof.
  unfold parse_part, unrecognized.
  destruct (assoc part _KEY_MAP) as [k |].
  { split; [done | by intros [? _]]. }
  destruct part as [| c [| c' rest]]; simpl.
  - split; [intros _ | done]. split_and!; [done | lia | done].
  - split; [done | by intros (_ & ? & _)].
  - destruct (Key_getattr _); [split; [done | by intros (_ & _ & ?)] |].
    split; [intros _ | done]. split_and!; [done | lia | done].
Qed.

(** The size of a parsed combination is the length of the list that
    [list(...)] makes of it. *)
Lemma size_elements (ks : gset key) : size ks = length (elements ks).
Proof. reflexivity. Qed.

Lemma parse_Some_size (s : string) (ks : gset key) :
  _parse_hotkey_string s = Some ks -> 1 <= size ks.
Proof.
  intros H. unfold _parse_hotkey_string in H.
  destruct (parse_loop _ _) as [keys |]; [| done].
  destruct (decide (keys = ∅)) as [| Hne]; [done |].
  injection H as <-.
  destruct (decide (size keys = 0)) as [E |]; [| lia].
  apply size_empty_iff in E. destruct Hne. by apply leibniz_equiv.
Qed.

(** ** The parser and the constructor on any platform *)

Section OnAnyPlatform.

Variable getattr_Key : string -> option key.

(** The facts of the parser that hold whatever the lookup is. *)
Lemma parse_loop_on_mapM (parts : list string) (keys : gset key) :
  parse_loop_on getattr_Key parts keys
  = (fun l => keys ∪ list_to_set l) <$> mapM (parse_part_on getattr_Key) parts.
Proof.
  revert keys. induction parts as [| part rest IH]; intros keys; simpl.
  - f_equal. set_solver.
  - destruct (parse_part_on getattr_Key part) as [k |]; simpl; [| reflexivity].
    rewrite IH.
    destruct (mapM (parse_part_on getattr_Key) rest) as [l |]; simpl;
      [| reflexivity].
    f_equal. set_solver.
Qed.

(** A successful parse is the set of the keys of the tokens. *)
Lemma parse_on_Some (s : string) (ks : gset key) :
  _parse_hotkey_string_on getattr_Key s = Some ks
  <-> exists l, mapM (parse_part_on getattr_Key) (hotkey_parts s) = Some l
                /\ ks = list_to_set l.
Proof.
  unfold _parse_hotkey_string_on. rewrite parse_loop_on_mapM.
  destruct (mapM (parse_part_on getattr_Key) (hotkey_parts s)) as [l |] eqn:E;
    simpl.
  - assert (Hne : (∅ ∪ list_to_set l : gset key) ≠ ∅).
    { apply mapM_Some_1, Forall2_length in E.
      destruct l as [| k l]; simpl in *.
      - destruct (hotkey_parts s) eqn:P; [| done].
        by apply hotkey_parts_not_nil in P.
      - set_solver. }
    destruct (decide _) as [Hemp | _]; [contradiction |].
    split.
    + intros [= <-]. exists l. split; [reflexivity | set_solver].
    + intros (l' & [= <-] & ->). f_equal. set_solver.
  - split; [discriminate |]. intros (l & H & _). discriminate.
Qed.

(** A failed parse has a token that no branch of the loop accepts. *)
Lemma parse_on_None (s : string) :
  _parse_hotkey_string_on getattr_Key s = None
  <-> exists part, part ∈ hotkey_parts s /\ parse_part_on getattr_Key part = None.
Proof.
  split.
  - intros H.
    destruct (mapM (parse_part_on getattr_Key) (hotkey_parts s)) as [l |] eqn:E.
    + assert (P : _parse_hotkey_string_on getattr_Key s = Some (list_to_set l)).
      { apply parse_on_Some. eauto. }
      congruence.
    + clear H. induction (hotkey_parts s) as [| part rest IH]; simpl in E.
      * discriminate.
      * destruct (parse_part_on getattr_Key part) as [k |] eqn:Pk.
        -- destruct (mapM (parse_part_on getattr_Key) rest) as [l |];
             [discriminate |].
           destruct (IH eq_refl) as (p & Hin & Hp).
           exists p. split; [now right | exact Hp].
        -- exists part. split; [now left | exact Pk].
  - intros (part & Hin & Hp).
    destruct (_parse_hotkey_string_on getattr_Key s) as [ks |] eqn:E;
      [| reflexivity].
    apply parse_on_Some in E as (l & El & _).
    apply mapM_Some_1 in El. revert Hin.
    induction El as [| p k ps l' Hpk _ IH]; intros Hin.
    + inversion Hin.
    + apply elem_of_cons in Hin as [-> | Hin]; [congruence | exact (IH Hin)].
Qed.

Lemma parse_part_on_None (part : string) :
  parse_part_on getattr_Key part = None <-> unrecognized_on getattr_Key part.
Proof.
  unfold parse_part_on, unrecognized_on.
  destruct (assoc part _KEY_MAP) as [k |].
  { split; [done | by intros [? _]]. }
  destruct part as [| c [| c' rest]]; simpl.
  - split; [intros H | by intros (_ & _ & ?)]. split_and!; [done | lia | done].
  - split; [done | by intros (_ & ? & _)].
  - split; [intros H | by intros (_ & _ & ?)]. split_and!; [done | lia | done].
Qed.

Lemma parse_on_Some_size (s : string) (ks : gset key) :
  _parse_hotkey_string_on getattr_Key s = Some ks -> 1 <= size ks.
Proof.
  intros H. unfold _parse_hotkey_string_on in H.
  destruct (parse_loop_on _ _ _) as [keys |]; [| done].
  destruct (decide (keys = ∅)) as [| Hne]; [done |].
  injection H as <-.
  destruct (decide (size keys = 0)) as [E |]; [| lia].
  apply size_empty_iff in E. destruct Hne. by apply leibniz_equiv.
Qed.

(** The constructor raises in two cases: one of the parses failed, or the
    exit combination has more than one key. *)
Lemma init_on_raises (t e : string) :
  (exists err, __init__on getattr_Key t e = inl err)
  <-> _parse_hotkey_string_on getattr_Key t = None
      \/ _parse_hotkey_string_on getattr_Key e = None
      \/ exists ks, _parse_hotkey_string_on getattr_Key e = Some ks
                    /\ 1 < size ks.
Proof.
  unfold __init__on.
  destruct (_parse_hotkey_string_on getattr_Key t) as [tk |] eqn:Et;
    [| naive_solver].
  destruct (_parse_hotkey_string_on getattr_Key e) as [ek |] eqn:Ee;
    [| naive_solver].
  pose proof (parse_on_Some_size _ _ Ee) as Hsz. rewrite size_elements in *.
  destruct (elements ek) as [| k [| k' rest]] eqn:El; simpl in *.
  - lia.
  - split; [intros [err H]; done |].
    intros [H | [H | (ks & [= <-] & H)]]; try done.
    rewrite size_elements, El in H. simpl in H. lia.
  - split; [| eauto]. intros _. right. right. exists ek.
    split; [done |]. rewrite size_elements, El. simpl. lia.
Qed.

(** The names of [_KEY_MAP] are looked up in the table on every platform. *)
Lemma parse_on_esc :
  elements <$> _parse_hotkey_string_on getattr_Key "esc"
  = Some [Special Key_esc].
Proof. vm_compute. reflexivity. Qed.

Lemma parse_on_ctrl_esc :
  size <$> _parse_hotkey_string_on getattr_Key "ctrl+esc" = Some 2.
Proof. vm_compute. reflexivity. Qed.

(** With the exit string [esc], the constructor depends on the trigger
    string alone. *)
Lemma init_on_with_esc (t : string) :
  __init__on getattr_Key t "esc"
  = match _parse_hotkey_string_on getattr_Key t with
    | Some trigger =>
        inr (mkHotkeyListener ∅ false false None trigger
               (Special Key_esc) None)
    | None => inl Error_parsing_trigger
    end.
Proof.
  unfold __init__on.
  destruct (_parse_hotkey_string_on getattr_Key t) as [tk |]; [| done].
  pose proof parse_on_esc as H.
  destruct (_parse_hotkey_string_on getattr_Key "esc") as [ek |]; [| done].
  injection H as ->. done.
Qed.

(** What the constructor builds when both strings parse and the exit
    string names one key. *)
Lemma init_on_of_parses (t e : string) (trigger : gset key) (exit_key : key) :
  _parse_hotkey_string_on getattr_Key t = Some trigger ->
  _parse_hotkey_string_on getattr_Key e = Some {[ exit_key ]} ->
  __init__on getattr_Key t e
  = inr (mkHotkeyListener ∅ false false None trigger exit_key None).
Proof.
  intros Ht He. unfold __init__on. rewrite Ht, He.
  by rewrite elements_singleton.
Qed.

Lemma init_on_fresh (t e : string) (s : HotkeyListener) :
  __init__on getattr_Key t e = inr s ->
  _current_keys s = ∅ /\ _exit_app_flag s = false
  /\ _is_running_query s = false /\ _listener s = None
  /\ _workflow_callback s = None.
Proof.
  unfold __init__on. intros H. repeat case_match; simplify_eq. done.
Qed.

End OnAnyPlatform.

(** [parse_part], [_parse_hotkey_string] and [__init__] are the parser and
    the constructor of the platform without aliases. *)
Lemma parse_part_on_members (part : string) :
  parse_part_on members_only part = parse_part part.
Proof. reflexivity. Qed.

Lemma parse_on_members (s : string) :
  _parse_hotkey_string_on members_only s = _parse_hotkey_string s.
Proof.
  unfold _parse_hotkey_string_on, _parse_hotkey_string.
  assert (E : forall parts keys,
            parse_loop_on members_only parts keys = parse_loop parts keys).
  { induction parts as [| part rest IH]; intros keys; simpl; [done |].
    rewrite parse_part_on_members.
    destruct (parse_part part); [apply IH | done]. }
  by rewrite E.
Qed.

Lemma init_on_members (t e : string) :
  __init__on members_only t e = __init__ t e.
Proof. unfold __init__on, __init__. by rewrite !parse_on_members. Qed.

(** ** C4: when the constructor raises *)

Lemma parse_esc :
  elements <$> _parse_hotkey_string "esc" = Some [Special Key_esc].
Proof. vm_compute. reflexivity. Qed.

(** With the exit string [esc], the constructor depends on the trigger
    string alone. *)
Lemma init_with_esc (t : string) :
  __init__ t "esc"
  = match _parse_hotkey_string t with
    | Some trigger =>
        inr (mkHotkeyListener ∅ false false None trigger
               (Special Key_esc) None)
    | None => inl Error_parsing_trigger
    end.
Proof.
  unfold __init__.
  destruct (_parse_hotkey_string t) as [tk |]; [| done].
  pose proof parse_esc as H.
  destruct (_parse_hotkey_string "esc") as [ek |]; [| done].
  injection H as ->. done.
Qed.

(** C4, as the claim states it, fails twice.  The token [caps_lock] is not
    a name of [_KEY_MAP] and is nine characters long, so the claim has the
    constructor raise; the last branch of the loop finds the member
    [Key.caps_lock] and the listener is built.  And the token made of the
    control character 1 is not a name of [_KEY_MAP] and is a single
    character that is not printable, so the claim has the constructor raise
    again; the parser asks for the length only, makes a [KeyCode] of the
    character, and the listener is built. *)
Lemma C4_counterexample_caps_lock :
  ("caps_lock" ∈ hotkey_parts "caps_lock"
   /\ assoc "caps_lock" _KEY_MAP = None
   /\ String.length "caps_lock" = 9
   /\ match __init__ "caps_lock" "esc" with
      | inr s => elements (_trigger_combination s) = [Special Key_caps_lock]
                 /\ _exit_key_obj s = Special Key_esc
      | inl _ => False
      end)
  /\ (hotkey_parts (String "001" EmptyString) = [String "001" EmptyString]
      /\ assoc (String "001" EmptyString) _KEY_MAP = None
      /\ isprintable "001" = false
      /\ forall getattr_Key,
           match __init__on getattr_Key (String "001" EmptyString) "esc" with
           | inr s => elements (_trigger_combination s) = [KeyCode "001"]
                      /\ _exit_key_obj s = Special Key_esc
           | inl _ => False
           end).
Proof.
  split.
  - vm_compute. repeat split. by left.
  - split_and!; [reflexivity .. |]. intros getattr_Key. vm_compute. done.
Qed.

(** C4, amended, for hotkey strings of ASCII characters and for every
    lookup of the platform: the constructor raises exactly when a token of
    either string is accepted by no branch of the parser (it is not a name
    of [_KEY_MAP], not a single character, printable or not, and the lookup
    of the token as an attribute of the key enumeration finds nothing that
    is true and can be put in a set), or the exit string parses to more than
    one key object.  No parse yields an empty set.  With the exit string
    [esc] the listener is built, with [Key.esc] as its exit key, whenever
    the trigger string parses; with [ctrl+esc] the constructor raises for
    every trigger string. *)
Theorem C4_init_raises_exactly_when
    (getattr_Key : string -> option key) (t e : string) :
  is_ascii t = true ->
  is_ascii e = true ->
  ((exists err, __init__on getattr_Key t e = inl err)
   <-> (exists part, part ∈ hotkey_parts t ++ hotkey_parts e
                     /\ unrecognized_on getattr_Key part)
       \/ (exists ks, _parse_hotkey_string_on getattr_Key e = Some ks
                      /\ 1 < size ks))
  /\ (forall ks, _parse_hotkey_string_on getattr_Key t = Some ks -> 1 <= size ks)
  /\ __init__on getattr_Key t "esc"
     = match _parse_hotkey_string_on getattr_Key t with
       | Some trigger =>
           inr (mkHotkeyListener ∅ false false None trigger
                  (Special Key_esc) None)
       | None => inl Error_parsing_trigger
       end
  /\ (exists err, __init__on getattr_Key t "ctrl+esc" = inl err).
Proof.
  intros _ _. split; [| split; [| split]].
  - rewrite init_on_raises, !parse_on_None.
    setoid_rewrite elem_of_app. setoid_rewrite parse_part_on_None.
    naive_solver.
  - apply parse_on_Some_size.
  - apply init_on_with_esc.
  - apply init_on_raises. right. right.
    pose proof (parse_on_ctrl_esc getattr_Key) as H.
    destruct (_parse_hotkey_string_on getattr_Key "ctrl+esc") as [ek |];
      [| done].
    injection H as H. exists ek. split; [done | lia].
Qed.

Lemma C4_init_raises_exactly_when_witness :
  ((exists err, __init__on aliasing_lookup "mro+Shift_L" "shift + shift_l"
                = inl err)
   <-> (exists part,
          part ∈ hotkey_parts "mro+Shift_L" ++ hotkey_parts "shift + shift_l"
          /\ unrecognized_on aliasing_lookup part)
       \/ (exists ks,
             _parse_hotkey_string_on aliasing_lookup "shift + shift_l" = Some ks
             /\ 1 < size ks))
  /\ (forall ks,
        _parse_hotkey_string_on aliasing_lookup "mro+Shift_L" = Some ks ->
        1 <= size ks)
  /\ __init__on aliasing_lookup "mro+Shift_L" "esc"
     = match _parse_hotkey_string_on aliasing_lookup "mro+Shift_L" with
       | Some trigger =>
           inr (mkHotkeyListener ∅ false false None trigger
                  (Special Key_esc) None)
       | None => inl Error_parsing_trigger
       end
  /\ (exists err, __init__on aliasing_lookup "mro+Shift_L" "ctrl+esc" = inl err).
Proof.
  apply (C4_init_raises_exactly_when aliasing_lookup
           "mro+Shift_L" "shift + shift_l"); reflexivity.
Defined.

(** Where the left shift is the shift itself and the class has a method
    [mro], the constructor builds a listener from [mro+Shift_L] and
    [shift + shift_l]: the trigger holds the method and the shift, and the
    exit string names one key twice. *)
Example init_on_aliasing_platform :
  match __init__on aliasing_lookup "mro+Shift_L" "shift + shift_l" with
  | inr s => size (_trigger_combination s) = 2
             /\ bool_decide (Attribute "mro" ∈ _trigger_combination s) = true
             /\ bool_decide (Special Key_shift ∈ _trigger_combination s) = true
             /\ _exit_key_obj s = Special Key_shift
  | inl _ => False
  end.
Proof. vm_compute. done. Qed.

(** ** C5: the size of a parsed combination *)

(** C5, as the claim states it, fails: [cmd+win] has two distinct tokens,
    and both name [Key.cmd], so the combination has one key. *)
Lemma C5_counterexample_cmd_win :
  hotkey_parts "cmd+win" = ["cmd"; "win"]
  /\ length (remove_dups (hotkey_parts "cmd+win")) = 2
  /\ elements <$> _parse_hotkey_string "cmd+win" = Some [Special Key_cmd]
  /\ size <$> _parse_hotkey_string "cmd+win" = Some 1.
Proof. vm_compute. done. Qed.

Lemma mapM_parse_part_image (parts : list string) (l : list key) :
  mapM parse_part parts = Some l ->
  forall k, k ∈ l -> exists part, part ∈ parts /\ parse_part part = Some k.
Proof.
  intros H. apply mapM_Some_1 in H.
  induction H as [| part k parts l Hk _ IH]; intros k' Hin.
  - inversion Hin.
  - apply elem_of_cons in Hin as [-> | Hin].
    + exists part. split; [by left | done].
    + destruct (IH _ Hin) as (p & Hp & E). exists p. split; [by right | done].
Qed.

(** Distinct keys come from distinct tokens. *)
Lemma distinct_keys_le_distinct_tokens (parts : list string) (l : list key) :
  mapM parse_part parts = Some l ->
  length (remove_dups l) <= length (remove_dups parts).
Proof.
  intros H.
  set (key_of := fun part => default (KeyCode "000"%char) (parse_part part)).
  rewrite <- (length_fmap key_of (remove_dups parts)).
  apply submseteq_length, NoDup_submseteq; [apply NoDup_remove_dups |].
  intros k Hk. rewrite elem_of_remove_dups in Hk.
  destruct (mapM_parse_part_image _ _ H _ Hk) as (part & Hin & E).
  apply list_elem_of_fmap. exists part. split.
  - unfold key_of. by rewrite E.
  - by rewrite elem_of_remove_dups.
Qed.

(** C5, amended: the size of a parsed combination is the number of distinct
    key identifiers that its tokens name, which is at least one and at most
    the number of distinct tokens (several names of [_KEY_MAP] can name one
    key); [shift+shift] parses to one key, and [shift+space] to the two keys
    [Key.shift] and [Key.space]. *)
Theorem C5_parse_size :
  (forall (s : string) (ks : gset key),
     _parse_hotkey_string s = Some ks ->
     exists l,
       mapM parse_part (hotkey_parts s) = Some l
       /\ size ks = length (remove_dups l)
       /\ 1 <= size ks <= length (remove_dups (hotkey_parts s)))
  /\ elements <$> _parse_hotkey_string "shift+shift" = Some [Special Key_shift]
  /\ (exists ks,
       _parse_hotkey_string "shift+space" = Some ks
       /\ size ks = 2
       /\ Special Key_shift ∈ ks
       /\ Special Key_space ∈ ks).
Proof.
  split; [| split; [vm_compute; reflexivity |]].
  2: { pose proof parse_shift_space as H.
       destruct (_parse_hotkey_string "shift+space") as [ks |]; [| done].
       injection H as H. exists ks. split; [done |].
       rewrite size_elements, <- !elem_of_elements, H.
       split; [done |]. rewrite !elem_of_cons. naive_solver. }
  intros s ks H. pose proof (parse_Some_size _ _ H) as Hsz.
  apply parse_Some in H as (l & El & ->). exists l.
  assert (E : size (list_to_set l : gset key) = length (remove_dups l)).
  { rewrite <- (size_list_to_set (C := gset key) (remove_dups l))
      by apply NoDup_remove_dups.
    f_equal. apply set_eq. intros k.
    rewrite !elem_of_list_to_set. by rewrite elem_of_remove_dups. }
  split; [done |]. split; [done |]. split; [done |].
  rewrite E. by apply distinct_keys_le_distinct_tokens.
Qed.

Lemma C5_parse_size_witness :
  exists l,
    mapM parse_part (hotkey_parts "ctrl+win+Command") = Some l
    /\ size (list_to_set [Special Key_ctrl; Special Key_cmd] : gset key)
       = length (remove_dups l)
    /\ 1 <= size (list_to_set [Special Key_ctrl; Special Key_cmd] : gset key)
       <= length (remove_dups (hotkey_parts "ctrl+win+Command")).
Proof.
  apply (proj1 C5_parse_size "ctrl+win+Command").
  apply parse_Some. exists [Special Key_ctrl; Special Key_cmd; Special Key_cmd].
  split; [vm_compute; reflexivity |].
  apply set_eq. intros k. rewrite !elem_of_list_to_set.
  rewrite !elem_of_cons. naive_solver.
Defined.

(** * Properties of the event handlers *)

Ltac unfold_methods :=
  unfold _on_press, _on_release, _on_press_body, _on_release_body,
    request_exit, stop, is_exit_requested, _is_query_running_internal,
    read_workflow_callback, set_query_running, _add_callback, start,
    try_except, bind, get, modify, emit, ret, raise,
    outcome, final, effects, keys_after_press, stop_effects in *;
  simpl in *.

Lemma request_exit_again (s : HotkeyListener) :
  _exit_app_flag s = true -> request_exit s = (Return tt, s, []).
Proof. intros H. unfold_methods. by rewrite H. Qed.

(** What a press does while no exit is requested, case by case. *)
Lemma on_press_cases (k : key) (s : HotkeyListener) :
  _exit_app_flag s = false ->
  let s1 := set_current_keys (keys_after_press k s) s in
  let exit_check (log : list effect) :=
    if decide (_normalize_key k = _exit_key_obj s)
    then (Return PyFalse, final (stop (set_exit_app_flag true s1)),
          log ++ stop_effects s)
    else (Return PyNone, s1, log) in
  _on_press k s =
    if decide (_trigger_combination s ⊆ keys_after_press k s) then
      if _is_running_query s then exit_check []
      else match _workflow_callback s with
           | None => (Return PyTrue, s1, [])
           | Some None => exit_check []
           | Some (Some target) => exit_check [ThreadStart target]
           end
    else exit_check [].
Proof.
  intros H. unfold_methods. rewrite H. simpl.
  destruct (decide (_trigger_combination s ⊆ _)) as [Hsub | Hsub]; simpl.
  - destruct (_is_running_query s); simpl.
    + destruct (decide (_ = _)); simpl; [| done].
      rewrite H; simpl. destruct (_listener s) as [[|] |]; done.
    + destruct (_workflow_callback s) as [[target |] |]; simpl; [| | done].
      * destruct (decide (_ = _)); simpl; [| done].
        rewrite H; simpl. destruct (_listener s) as [[|] |]; done.
      * destruct (decide (_ = _)); simpl; [| done].
        rewrite H; simpl. destruct (_listener s) as [[|] |]; done.
  - destruct (decide (_ = _)); simpl; [| done].
    rewrite H; simpl. destruct (_listener s) as [[|] |]; done.
Qed.

(** The listener after a press handled while no exit is requested: the
    pressed keys are updated, and where the exit key is recognised the flag
    is set and [stop] has run. *)
Lemma on_press_final (k : key) (s : HotkeyListener) :
  _exit_app_flag s = false ->
  final (_on_press k s) = set_current_keys (keys_after_press k s) s
  \/ final (_on_press k s)
     = final (stop (set_exit_app_flag true
                      (set_current_keys (keys_after_press k s) s))).
Proof.
  intros H. rewrite (on_press_cases k s H). simpl.
  repeat (case_decide || case_match); simpl; auto.
Qed.

(** ** What the constructor builds from the configured strings *)

Lemma parse_shift_space_set :
  _parse_hotkey_string "shift+space" = Some shift_space.
Proof.
  apply parse_Some. exists [Special Key_shift; Special Key_space].
  split; [vm_compute; reflexivity | reflexivity].
Qed.

Lemma init_shift_space_esc : __init__ "shift+space" "esc" = inr fresh_listener.
Proof.
  by rewrite init_with_esc, parse_shift_space_set.
Qed.

(** ** C1: one worker per trigger, none while a workflow runs *)

(** C1: for a press handled while no exit is requested, if the trigger
    combination is a subset of the pressed keys (as they are once the key is
    added), the running flag is false and a callback is registered, the
    handler starts exactly one worker, the callback; and if the running flag
    is true the handler starts none. *)
Theorem C1_one_worker_per_trigger (k : key) (s : HotkeyListener) :
  _exit_app_flag s = false ->
  (forall target : callable,
     _trigger_combination s ⊆ keys_after_press k s ->
     _is_running_query s = false ->
     _workflow_callback s = Some (Some target) ->
     workers_spawned (effects (_on_press k s)) = [target])
  /\ (_is_running_query s = true ->
      workers_spawned (effects (_on_press k s)) = []).
Proof.
  intros Hexit. rewrite (on_press_cases k s Hexit). split.
  - intros target Hsub Hrun Hcb. rewrite decide_True by done.
    rewrite Hrun, Hcb. destruct (decide (_ = _)); simpl; [| done].
    unfold stop_effects. by destruct (_listener s) as [[|] |].
  - intros Hrun. rewrite Hrun.
    destruct (decide (_ ⊆ _)); destruct (decide (_ = _)); simpl; try done;
      unfold stop_effects; by destruct (_listener s) as [[|] |].
Qed.

Lemma C1_one_worker_per_trigger_witness :
  workers_spawned (effects (_on_press (Special Key_space) (listening false)))
  = [workflow]
  /\ workers_spawned (effects (_on_press (Special Key_space) (listening true)))
     = [].
Proof.
  split.
  - apply (C1_one_worker_per_trigger (Special Key_space) (listening false));
      [reflexivity | | reflexivity | reflexivity].
    unfold keys_after_press, listening, shift_space; simpl. set_solver.
  - apply (C1_one_worker_per_trigger (Special Key_space) (listening true));
      reflexivity.
Defined.

(** ** C2: after an exit request the handlers only halt *)

Lemma handlers_halt_after_exit (k : key) (s : HotkeyListener) :
  _exit_app_flag s = true ->
  _on_press k s = (Return PyFalse, s, [])
  /\ _on_release k s = (Return PyFalse, s, []).
Proof. intros H. unfold_methods. by rewrite H. Qed.

(** C2: once the exit flag is set, a press and a release both return
    [False] (the halt signal of pynput) at once: the listener, and with it
    the set of pressed keys, is unchanged, and nothing is started. *)
Theorem C2_halt_after_exit (k : key) (s : HotkeyListener) :
  _exit_app_flag s = true ->
  _on_press k s = (Return PyFalse, s, [])
  /\ _on_release k s = (Return PyFalse, s, []).
Proof.
  intros Hexit. split.
  - unfold _on_press, is_exit_requested, bind, get, ret. simpl.
    by rewrite Hexit.
  - unfold _on_release, is_exit_requested, bind, get, ret. simpl.
    by rewrite Hexit.
Qed.

Lemma C2_halt_after_exit_witness :
  _on_press (Special Key_shift_l) (set_exit_app_flag true (listening false))
  = (Return PyFalse, set_exit_app_flag true (listening false), [])
  /\ _on_release (Special Key_shift_l)
       (set_exit_app_flag true (listening false))
     = (Return PyFalse, set_exit_app_flag true (listening false), []).
Proof.
  apply (C2_halt_after_exit _ (set_exit_app_flag true (listening false))).
  reflexivity.
Defined.

(** ** C3: the exit request is idempotent and the flag is a latch *)

Lemma call_keeps_exit_flag (op : operation) (s : HotkeyListener) :
  _exit_app_flag s = true -> _exit_app_flag (final (call op s)) = true.
Proof.
  intros H. destruct op; unfold call, wait_for_exit; unfold_methods;
    try rewrite H; simpl; try done.
  - destruct (_listener s) as [[|] |]; destruct start_ok; done.
  - destruct (_listener s) as [[|] |]; done.
Qed.

(** C3: the first [request_exit] sets the exit flag and then runs [stop],
    which leaves no listener; a call on a listener whose flag is set changes
    nothing and has no effect, so a second call in a row is void; and no
    sequence of calls of the listener's methods and callbacks clears a flag
    that is set. *)
Theorem C3_request_exit_idempotent :
  (forall s : HotkeyListener,
     _exit_app_flag s = false ->
     request_exit s = (modify (set_exit_app_flag true) ;; stop) s
     /\ _exit_app_flag (final (request_exit s)) = true
     /\ _listener (final (request_exit s)) = None)
  /\ (forall s : HotkeyListener,
       _exit_app_flag s = true -> request_exit s = (Return tt, s, []))
  /\ (forall s : HotkeyListener,
       request_exit (final (request_exit s))
       = (Return tt, final (request_exit s), []))
  /\ (forall (ops : list operation) (s : HotkeyListener),
       _exit_app_flag s = true -> _exit_app_flag (after_calls ops s) = true).
Proof.
  split_and!.
  - intros s H. unfold_methods. rewrite H; simpl.
    destruct (_listener s) as [[|] |] eqn:E; simpl; rewrite ?E; done.
  - apply request_exit_again.
  - intros s. apply request_exit_again.
    destruct (_exit_app_flag s) eqn:H.
    + by rewrite request_exit_again.
    + unfold_methods. rewrite H; simpl.
      destruct (_listener s) as [[|] |]; done.
  - intros ops. induction ops as [| op ops IH]; intros s H; simpl; [done |].
    apply IH. by apply call_keeps_exit_flag.
Qed.

Lemma C3_request_exit_idempotent_witness :
  (request_exit (listening true)
   = (modify (set_exit_app_flag true) ;; stop) (listening true)
   /\ _exit_app_flag (final (request_exit (listening true))) = true
   /\ _listener (final (request_exit (listening true))) = None)
  /\ request_exit (set_exit_app_flag true (listening true))
     = (Return tt, set_exit_app_flag true (listening true), [])
  /\ _exit_app_flag
       (after_calls
          [Call_on_press (Special Key_esc); Call_set_query_running false;
           Call_start true; Call_on_release (Special Key_shift)]
          (set_exit_app_flag true (listening true))) = true.
Proof.
  destruct C3_request_exit_idempotent as (First & Again & _ & Latch).
  split; [| split].
  - apply First. reflexivity.
  - apply Again. reflexivity.
  - apply Latch. reflexivity.
Defined.

(** ** C6: the exit key *)

(** A press of the exit key halts the listener whenever the handler reaches
    its exit check: that is, unless the press matches the trigger while no
    workflow runs and [_workflow_callback] was never assigned. *)
Lemma exit_key_halts (k : key) (s : HotkeyListener) :
  _exit_app_flag s = false ->
  _normalize_key k = _exit_key_obj s ->
  _workflow_callback s <> None
  \/ _is_running_query s = true
  \/ ~ _trigger_combination s ⊆ keys_after_press k s ->
  outcome (_on_press k s) = Return PyFalse
  /\ _exit_app_flag (final (_on_press k s)) = true
  /\ _listener (final (_on_press k s)) = None.
Proof.
  intros Hexit Hk Hreach. rewrite (on_press_cases k s Hexit).
  assert (Hstop : forall s1, _exit_app_flag (final (stop (set_exit_app_flag true s1))) = true
                         /\ _listener (final (stop (set_exit_app_flag true s1))) = None).
  { intros s1. unfold_methods.
    destruct (_listener s1) as [[|] |] eqn:E; simpl; rewrite ?E; done. }
  destruct (decide (_ ⊆ _)) as [Hsub | Hsub].
  - destruct (_is_running_query s) eqn:Hrun.
    + rewrite decide_True by done. simpl. split; [done | apply Hstop].
    + destruct (_workflow_callback s) as [[target |] |] eqn:Hcb.
      * rewrite decide_True by done. simpl. split; [done | apply Hstop].
      * rewrite decide_True by done. simpl. split; [done | apply Hstop].
      * naive_solver.
  - rewrite decide_True by done. simpl. split; [done | apply Hstop].
Qed.

(** C6 fails on the listener built from [shift+space] and [esc] on which
    [_add_callback] was never called: with shift and space held, the press
    of the exit key matches the trigger, reading [self._workflow_callback]
    raises [AttributeError], the [except] clause returns [True], and the
    exit check is never reached: no exit is requested and the listener
    stays alive. *)
Theorem C6_exit_key_skipped_without_callback :
  __init__ "shift+space" "esc" = inr fresh_listener
  /\ _normalize_key (Special Key_esc) = _exit_key_obj fresh_listener
  /\ let run :=
       (start true ;;
        _on_press (Special Key_shift_l) ;;
        _on_press (Special Key_space) ;;
        _on_press (Special Key_esc)) fresh_listener in
     outcome run = Return PyTrue
     /\ _exit_app_flag (final run) = false
     /\ _listener (final run) = Some true
     /\ effects run = [ListenerStart].
Proof.
  split; [apply init_shift_space_esc |]. vm_compute. done.
Qed.

(** ** C7: the pressed keys are normalized *)

Lemma normalize_key_idem (k : key) :
  _normalize_key (_normalize_key k) = _normalize_key k.
Proof. destruct k as [[] | c | name]; reflexivity. Qed.

Lemma stop_current_keys (s : HotkeyListener) :
  _current_keys (final (stop s)) = _current_keys s.
Proof. unfold_methods. destruct (_listener s) as [[|] |]; done. Qed.

Lemma on_press_current_keys (k : key) (s : HotkeyListener) :
  _exit_app_flag s = false ->
  _current_keys (final (_on_press k s)) = _current_keys s ∪ {[ _normalize_key k ]}.
Proof.
  intros H. rewrite (on_press_cases k s H).
  assert (Hstop : forall s1 log,
    _current_keys (final (Return PyFalse, final (stop s1), log)) = _current_keys s1).
  { intros s1 log. apply stop_current_keys. }
  repeat (case_decide || case_match); rewrite ?Hstop; done.
Qed.

Lemma on_release_current_keys (k : key) (s : HotkeyListener) :
  _exit_app_flag s = false ->
  _current_keys (final (_on_release k s)) = _current_keys s ∖ {[ _normalize_key k ]}.
Proof. intros H. unfold_methods. by rewrite H. Qed.

Lemma call_keeps_normalized (op : operation) (s : HotkeyListener) :
  keys_normalized s -> keys_normalized (final (call op s)).
Proof.
  intros Hs. destruct op as [cb | ok | | | | | status | k | k];
    [ unfold call, wait_for_exit; unfold_methods;
      repeat case_match; simplify_eq; simpl; exact Hs .. | | ].
  - unfold call. unfold bind at 1, final. simpl.
    destruct (_exit_app_flag s) eqn:H.
    + rewrite (proj1 (handlers_halt_after_exit k s H)). simpl. exact Hs.
    + pose proof (on_press_current_keys k s H) as E. unfold final in E.
      destruct (_on_press k s) as [[[r | e] s'] log]; simpl in *;
        intros k' Hin; rewrite E in Hin;
        (apply elem_of_union in Hin as [Hin | Hin];
         [by apply Hs | apply elem_of_singleton in Hin as ->;
                        apply normalize_key_idem]).
  - unfold call. unfold bind at 1, final. simpl.
    destruct (_exit_app_flag s) eqn:H.
    + rewrite (proj2 (handlers_halt_after_exit k s H)). simpl. exact Hs.
    + pose proof (on_release_current_keys k s H) as E. unfold final in E.
      destruct (_on_release k s) as [[[r | e] s'] log]; simpl in *;
        intros k' Hin; rewrite E in Hin;
        apply elem_of_difference in Hin as [Hin _]; by apply Hs.
Qed.

Lemma after_calls_normalized (ops : list operation) (s : HotkeyListener) :
  keys_normalized s -> keys_normalized (after_calls ops s).
Proof.
  revert s. induction ops as [| op ops IH]; intros s Hs; simpl; [done |].
  apply IH. by apply call_keeps_normalized.
Qed.

(** [_normalize_key] sends every key of a modifier family to the key that
    names the family, and changes no other key. *)
Lemma normalize_key_family (k : key) :
  _normalize_key k
  = match claimed_family k with
    | Some m => claimed_normal_form m
    | None => k
    end.
Proof. destruct k as [[] | c | name]; reflexivity. Qed.

(** C7: [_normalize_key] sends the left and the right shift to shift, the
    left and the right control to control, the left, the right and the graph
    alt to alt, the left and the right command to command, and changes no
    other key.  While no exit is requested, a press adds the normalized key
    and a release removes the normalized key.  So after any sequence of
    calls on a listener the constructor has built, among them any sequence
    of presses and releases, every pressed key is its own normal form, and
    two pressed keys of one modifier family are the same key, the one that
    names the family. *)
Theorem C7_pressed_keys_normalized :
  (forall k : key,
     _normalize_key k
     = match claimed_family k with
       | Some m => claimed_normal_form m
       | None => k
       end)
  /\ (forall (k : key) (s : HotkeyListener),
        _exit_app_flag s = false ->
        _current_keys (final (_on_press k s))
        = _current_keys s ∪ {[ _normalize_key k ]}
        /\ _current_keys (final (_on_release k s))
           = _current_keys s ∖ {[ _normalize_key k ]})
  /\ (forall (getattr_Key : string -> option key) (t e : string)
             (s : HotkeyListener) (ops : list operation),
        __init__on getattr_Key t e = inr s ->
        (forall k, k ∈ _current_keys (after_calls ops s) -> _normalize_key k = k)
        /\ (forall k1 k2,
              k1 ∈ _current_keys (after_calls ops s) ->
              k2 ∈ _current_keys (after_calls ops s) ->
              _normalize_key k1 = _normalize_key k2 -> k1 = k2)
        /\ (forall k1 k2 m,
              k1 ∈ _current_keys (after_calls ops s) ->
              k2 ∈ _current_keys (after_calls ops s) ->
              claimed_family k1 = Some m ->
              claimed_family k2 = Some m ->
              k1 = claimed_normal_form m /\ k2 = claimed_normal_form m)).
Proof.
  split; [| split].
  - intros k. destruct k as [[] | c | name]; reflexivity.
  - intros k s H. split;
      [by apply on_press_current_keys | by apply on_release_current_keys].
  - intros getattr_Key t e s ops Hinit.
    assert (Hnorm : keys_normalized (after_calls ops s)).
    { apply after_calls_normalized. unfold __init__on in Hinit.
      repeat case_match; simplify_eq.
      intros pressed Hin. simpl in Hin. set_solver. }
    split; [exact Hnorm |]. split.
    + intros k1 k2 H1 H2 E. rewrite <- (Hnorm k1 H1), <- (Hnorm k2 H2). exact E.
    + intros k1 k2 m H1 H2 F1 F2.
      pose proof (Hnorm k1 H1) as E1. pose proof (Hnorm k2 H2) as E2.
      rewrite normalize_key_family, F1 in E1.
      rewrite normalize_key_family, F2 in E2. done.
Qed.

Lemma C7_pressed_keys_normalized_witness :
  (_current_keys (final (_on_press (Special Key_shift_r) fresh_listener))
   = _current_keys fresh_listener ∪ {[ _normalize_key (Special Key_shift_r) ]}
   /\ _current_keys (final (_on_release (Special Key_shift_r) fresh_listener))
      = _current_keys fresh_listener ∖ {[ _normalize_key (Special Key_shift_r) ]})
  /\ (forall k, k ∈ _current_keys (after_calls both_shifts fresh_listener) ->
                _normalize_key k = k)
  /\ (forall k1 k2,
        k1 ∈ _current_keys (after_calls both_shifts fresh_listener) ->
        k2 ∈ _current_keys (after_calls both_shifts fresh_listener) ->
        _normalize_key k1 = _normalize_key k2 -> k1 = k2)
  /\ (forall k1 k2 m,
        k1 ∈ _current_keys (after_calls both_shifts fresh_listener) ->
        k2 ∈ _current_keys (after_calls both_shifts fresh_listener) ->
        claimed_family k1 = Some m ->
        claimed_family k2 = Some m ->
        k1 = claimed_normal_form m /\ k2 = claimed_normal_form m).
Proof.
  split.
  - apply (proj1 (proj2 C7_pressed_keys_normalized)
             (Special Key_shift_r) fresh_listener).
    reflexivity.
  - apply (proj2 (proj2 C7_pressed_keys_normalized)
             members_only "shift+space" "esc").
    rewrite init_on_members. exact init_shift_space_esc.
Defined.

Example both_shifts_pressed :
  elements (_current_keys (after_calls both_shifts fresh_listener))
  = [Special Key_alt].
Proof. vm_compute. reflexivity. Qed.

(** ** C8: an exception of one event stays inside the handler *)

Lemma on_press_guarded (k : key) : _on_press k = guarded (_on_press_body k).
Proof. reflexivity. Qed.

Lemma on_release_guarded (k : key) :
  _on_release k = guarded (_on_release_body k).
Proof. reflexivity. Qed.

Section Guarded.

Variable body : M pyret.
Variable s : HotkeyListener.

Lemma guarded_returns : exists r, outcome (guarded body s) = Return r.
Proof.
  unfold guarded. unfold_methods. destruct (_exit_app_flag s); simpl; eauto.
  destruct (body s) as [[[r | e] s'] log]; simpl; eauto.
Qed.

Lemma guarded_swallows (e : exn) :
  _exit_app_flag s = false ->
  outcome (body s) = Raise e ->
  outcome (guarded body s) = Return PyTrue
  /\ final (guarded body s) = final (body s)
  /\ effects (guarded body s) = effects (body s).
Proof.
  intros Hexit Hraise. unfold guarded. unfold_methods. rewrite Hexit; simpl.
  destruct (body s) as [[[r | e'] s'] log]; simpl in *; [done |].
  by rewrite app_nil_r.
Qed.

End Guarded.

(** C8: the press and the release handler return on every event and every
    listener, they never raise; each is its body under the same guard, and
    whenever the guarded body raises, whatever the exception, the handler
    returns [True], a value on which pynput goes on with the next event.
    The body of the press handler does raise: see the witness. *)
Theorem C8_handler_swallows_exceptions (k : key) (s : HotkeyListener) :
  (exists r, outcome (_on_press k s) = Return r)
  /\ (exists r, outcome (_on_release k s) = Return r)
  /\ _on_press k = guarded (_on_press_body k)
  /\ _on_release k = guarded (_on_release_body k)
  /\ (forall (body : M pyret) (e : exn),
        _exit_app_flag s = false ->
        outcome (body s) = Raise e ->
        outcome (guarded body s) = Return PyTrue /\ halts PyTrue = false).
Proof.
  split_and!; [| | done | done |].
  - rewrite on_press_guarded. apply guarded_returns.
  - rewrite on_release_guarded. apply guarded_returns.
  - intros body e Hexit Hraise. split; [| done].
    by destruct (guarded_swallows body s e Hexit Hraise).
Qed.

Lemma C8_handler_swallows_exceptions_witness :
  outcome (_on_press_body (Special Key_space) no_callback)
  = Raise (AttributeError "_workflow_callback")
  /\ outcome (_on_press (Special Key_space) no_callback) = Return PyTrue
  /\ halts PyTrue = false.
Proof.
  assert (H : outcome (_on_press_body (Special Key_space) no_callback)
              = Raise (AttributeError "_workflow_callback")).
  { vm_compute. reflexivity. }
  split; [exact H |].
  destruct (C8_handler_swallows_exceptions (Special Key_space) no_callback)
    as (_ & _ & -> & _ & Hguard).
  exact (Hguard _ _ eq_refl H).
Defined.

(** ** C10: the trigger check comes before the exit check *)

(** C10: on a listener whose exit key belongs to its trigger combination,
    with a callback registered and no workflow running, the press of the
    exit key that completes the chord first starts the worker and then
    requests the exit: the worker is the first effect, the effects of
    [stop] follow, the exit flag is set, and the handler returns [False]. *)
Theorem C10_trigger_before_exit
  (k : key) (s : HotkeyListener) (target : callable) :
  _exit_app_flag s = false ->
  _is_running_query s = false ->
  _workflow_callback s = Some (Some target) ->
  _exit_key_obj s ∈ _trigger_combination s ->
  _normalize_key k = _exit_key_obj s ->
  _trigger_combination s ⊆ keys_after_press k s ->
  outcome (_on_press k s) = Return PyFalse
  /\ effects (_on_press k s) = ThreadStart target :: stop_effects s
  /\ workers_spawned (effects (_on_press k s)) = [target]
  /\ _exit_app_flag (final (_on_press k s)) = true.
Proof.
  intros Hexit Hrun Hcb _ Hk Hsub.
  destruct (exit_key_halts k s Hexit Hk) as (Hout & Hflag & _).
  { left. by rewrite Hcb. }
  assert (E : effects (_on_press k s) = ThreadStart target :: stop_effects s).
  { rewrite (on_press_cases k s Hexit).
    rewrite decide_True by done. rewrite Hrun, Hcb.
    by rewrite decide_True by done. }
  split; [done |]. split; [done |]. split; [| done].
  rewrite E. unfold stop_effects. by destruct (_listener s) as [[|] |].
Qed.

Lemma init_ctrl_esc : __init__ "ctrl+esc" "esc" = inr ctrl_esc_fresh.
Proof.
  rewrite init_with_esc.
  assert (E : _parse_hotkey_string "ctrl+esc" = Some ctrl_esc).
  { apply parse_Some. exists [Special Key_ctrl; Special Key_esc].
    split; [vm_compute; reflexivity | reflexivity]. }
  by rewrite E.
Qed.

Lemma C10_trigger_before_exit_witness :
  outcome (_on_press (Special Key_esc) ctrl_held) = Return PyFalse
  /\ effects (_on_press (Special Key_esc) ctrl_held)
     = ThreadStart workflow :: stop_effects ctrl_held
  /\ workers_spawned (effects (_on_press (Special Key_esc) ctrl_held))
     = [workflow]
  /\ _exit_app_flag (final (_on_press (Special Key_esc) ctrl_held)) = true.
Proof.
  apply (C10_trigger_before_exit (Special Key_esc) ctrl_held workflow).
  - vm_compute. reflexivity.
  - vm_compute. reflexivity.
  - vm_compute. reflexivity.
  - apply (bool_decide_unpack _). vm_compute. exact I.
  - vm_compute. reflexivity.
  - apply (bool_decide_unpack _). vm_compute. exact I.
Defined.

(** ** The workflow returns on every path *)

Lemma workflow_finally_run (path : option string) (s : HotkeyListener) :
  workflow_finally path s
  = (Return tt, set_is_running_query false s,
     [CleanupFile path; SetQueryRunning false]).
Proof. reflexivity. Qed.

Lemma workflow_capture_run (w : World) (s : HotkeyListener) :
  workflow_capture w s
  = (screenshot_result w, set_is_running_query true s,
     [SetQueryRunning true; TakeScreenshot]).
Proof.
  unfold workflow_capture, answer. unfold_methods.
  by destruct (screenshot_result w).
Qed.

(** A [try] whose handler returns, followed by the [finally] block of the
    workflow: it returns, the block's two calls end its log, and the running
    flag is false. *)
Lemma handled_then_finally (body : M unit) (path : option string)
    (s : HotkeyListener) :
  exists s' steps,
    try_finally (try_except body (fun _ => ret tt)) (workflow_finally path) s
    = (Return tt, set_is_running_query false s',
       steps ++ [CleanupFile path; SetQueryRunning false]).
Proof.
  unfold try_finally, try_except.
  destruct (body s) as [[[[] | e] s1] log1].
  - exists s1, log1. by rewrite workflow_finally_run.
  - exists s1, (log1 ++ []). unfold ret. by rewrite workflow_finally_run.
Qed.

Example workflow_completes :
  effects (run_analysis_workflow
             (mkWorld (Return (Some "/tmp/shot.png")) (Return "Option 2 is correct")
                true (Return true) quiet)
             (listening false))
  = [ SetQueryRunning true; TakeScreenshot; AnalyzeImage "/tmp/shot.png";
      Speak "Option 2 is correct"; CleanupFile (Some "/tmp/shot.png");
      SetQueryRunning false ].
Proof. vm_compute. reflexivity. Qed.

Example workflow_screenshot_fails :
  effects (run_analysis_workflow
             (mkWorld (Return None) (Return "unused") true (Return true) quiet)
             (listening false))
  = [ SetQueryRunning true; TakeScreenshot; CleanupFile None;
      SetQueryRunning false ].
Proof. vm_compute. reflexivity. Qed.

Example workflow_analysis_raises :
  let run :=
    run_analysis_workflow
      (mkWorld (Return (Some "/tmp/shot.png")) (Raise (RuntimeError "quota"))
         true (Return true) quiet)
      (listening false) in
  outcome run = Return tt
  /\ effects run
     = [ SetQueryRunning true; TakeScreenshot; AnalyzeImage "/tmp/shot.png";
         CleanupFile (Some "/tmp/shot.png"); SetQueryRunning false ].
Proof. vm_compute. done. Qed.

Example workflow_analysis_reports_error :
  effects (run_analysis_workflow
             (mkWorld (Return (Some "/tmp/shot.png")) (Return "Error: no candidates")
                true (Return true) quiet)
             (listening false))
  = [ SetQueryRunning true; TakeScreenshot; AnalyzeImage "/tmp/shot.png";
      CleanupFile (Some "/tmp/shot.png"); SetQueryRunning false ].
Proof. vm_compute. reflexivity. Qed.

Example workflow_exit_after_analysis :
  let run :=
    run_analysis_workflow
      (mkWorld (Return (Some "/tmp/shot.png")) (Return "Option 2 is correct")
         true (Return true) (fun i => Nat.eqb i 2))
      (listening false) in
  outcome run = Return tt
  /\ effects run
     = [ SetQueryRunning true; TakeScreenshot; AnalyzeImage "/tmp/shot.png";
         CleanupFile (Some "/tmp/shot.png"); SetQueryRunning false ]
  /\ _exit_app_flag (final run) = true
  /\ _is_running_query (final run) = false.
Proof. vm_compute. done. Qed.


(** * Further properties of the parser *)

Lemma lower_char_idem (c : ascii) : lower_char (lower_char c) = lower_char c.
Proof. destruct c as [[] [] [] [] [] [] [] []]; vm_compute; reflexivity. Qed.

Lemma lower_upper_char (c : ascii) : lower_char (upper_char c) = lower_char c.
Proof. destruct c as [[] [] [] [] [] [] [] []]; vm_compute; reflexivity. Qed.

Lemma lower_idem (s : string) : lower (lower s) = lower s.
Proof.
  induction s as [| c s IH]; simpl; [done |].
  by rewrite lower_char_idem, IH.
Qed.

Lemma lower_upper (s : string) : lower (upper s) = lower s.
Proof.
  induction s as [| c s IH]; simpl; [done |].
  by rewrite lower_upper_char, IH.
Qed.

(** X1: on every platform the parser ignores the case of the letters: a
    hotkey string of ASCII characters, the same string in capitals and the
    same string in small letters parse to the same result. *)
Theorem parse_ignores_case
    (getattr_Key : string -> option key) (s : string) :
  is_ascii s = true ->
  _parse_hotkey_string_on getattr_Key (upper s)
  = _parse_hotkey_string_on getattr_Key s
  /\ _parse_hotkey_string_on getattr_Key (lower s)
     = _parse_hotkey_string_on getattr_Key s.
Proof.
  intros _. unfold _parse_hotkey_string_on, hotkey_parts.
  by rewrite lower_upper, lower_idem.
Qed.

Lemma parse_ignores_case_witness :
  _parse_hotkey_string_on aliasing_lookup (upper "Shift_L+a")
  = _parse_hotkey_string_on aliasing_lookup "Shift_L+a"
  /\ _parse_hotkey_string_on aliasing_lookup (lower "Shift_L+a")
     = _parse_hotkey_string_on aliasing_lookup "Shift_L+a".
Proof. apply (parse_ignores_case aliasing_lookup "Shift_L+a"). reflexivity. Defined.

(** The keys of a successful parse are the keys of its tokens. *)
Lemma mapM_parse_part_elem (parts : list string) (l : list key) (k : key) :
  mapM parse_part parts = Some l ->
  k ∈ l <-> exists part, part ∈ parts /\ parse_part part = Some k.
Proof.
  intros H. split; [by apply mapM_parse_part_image |].
  intros (part & Hin & Hk). apply mapM_Some_1 in H.
  induction H as [| p k' ps l' Hpk _ IH]; [inversion Hin |].
  apply elem_of_cons in Hin as [-> | Hin].
  - assert (k' = k) as -> by congruence. by left.
  - right. by apply IH.
Qed.

(** X2: the result of the parser depends on the set of tokens only, not on
    their order and not on how often each occurs. *)
Theorem parse_depends_on_token_set (s1 s2 : string) :
  (forall part, part ∈ hotkey_parts s1 <-> part ∈ hotkey_parts s2) ->
  _parse_hotkey_string s1 = _parse_hotkey_string s2.
Proof.
  intros Hsame.
  destruct (_parse_hotkey_string s1) as [ks1 |] eqn:E1.
  - apply parse_Some in E1 as (l1 & El1 & ->).
    destruct (_parse_hotkey_string s2) as [ks2 |] eqn:E2.
    + apply parse_Some in E2 as (l2 & El2 & ->). f_equal.
      apply set_eq. intros k. rewrite !elem_of_list_to_set.
      rewrite (mapM_parse_part_elem _ _ k El1), (mapM_parse_part_elem _ _ k El2).
      by setoid_rewrite Hsame.
    + apply parse_None in E2 as (part & Hin & Hnone).
      apply Hsame in Hin.
      assert (N : _parse_hotkey_string s1 = None).
      { apply parse_None. eauto. }
      assert (S : _parse_hotkey_string s1 = Some (list_to_set l1)).
      { apply parse_Some. eauto. }
      congruence.
  - apply parse_None in E1 as (part & Hin & Hnone).
    symmetry. apply parse_None. exists part. split; [by apply Hsame | done].
Qed.

Lemma parse_depends_on_token_set_witness :
  _parse_hotkey_string "space+shift+Space" = _parse_hotkey_string "shift+space".
Proof.
  apply parse_depends_on_token_set. intros part.
  change (part ∈ ["space"; "shift"; "space"] <-> part ∈ ["shift"; "space"]).
  rewrite !elem_of_cons. naive_solver.
Defined.

(** ** Strings as lists of characters *)

Lemma chars_app (a b : string) : chars (String.append a b) = chars a ++ chars b.
Proof. induction a as [| c a IH]; simpl; [done | by rewrite IH]. Qed.

Lemma chars_inj (a b : string) : chars a = chars b -> a = b.
Proof.
  revert b. induction a as [| c a IH]; intros [| d b] H; simpl in H;
    try done.
  injection H as -> H. f_equal. by apply IH.
Qed.

Lemma lower_app (a b : string) :
  lower (String.append a b) = String.append (lower a) (lower b).
Proof. induction a as [| c a IH]; simpl; [done | by rewrite IH]. Qed.

Lemma chars_lower (s : string) : chars (lower s) = lower_char <$> chars s.
Proof. induction s as [| c s IH]; simpl; [done | by rewrite IH]. Qed.

(** ** [split] and [join] *)

Lemma split_app (sep : ascii) (a b : string) :
  split sep (String.append a (String sep b)) = split sep a ++ split sep b.
Proof.
  induction a as [| c a IH]; simpl.
  - by rewrite Ascii.eqb_refl.
  - destruct (Ascii.eqb c sep); rewrite IH; [done |].
    pose proof (split_not_nil sep a) as Hne.
    by destruct (split sep a).
Qed.

Lemma split_no_sep (sep : ascii) (s : string) :
  sep ∉ chars s -> split sep s = [s].
Proof.
  induction s as [| c s IH]; simpl; [done |].
  intros Hnot. rewrite not_elem_of_cons in Hnot. destruct Hnot as [Hc Hs].
  destruct (Ascii.eqb_spec c sep) as [-> | _]; [done |].
  by rewrite (IH Hs).
Qed.

Lemma split_join (sep : ascii) (fields : list string) :
  fields <> [] ->
  Forall (fun field => sep ∉ chars field) fields ->
  split sep (join sep fields) = fields.
Proof.
  intros Hne Hfree. induction Hfree as [| f fs Hf Hfs IH]; [done |].
  destruct fs as [| g fs]; simpl.
  - by apply split_no_sep.
  - rewrite split_app, (split_no_sep _ _ Hf). simpl. f_equal.
    by apply IH.
Qed.

(** The fields of a split are made of characters of the string, and none
    of them is the separator. *)
Lemma split_field_chars (sep : ascii) (s field : string) (c : ascii) :
  field ∈ split sep s -> c ∈ chars field -> c ∈ chars s /\ c <> sep.
Proof.
  revert field. induction s as [| d s IH]; simpl; intros field Hfield Hc.
  - apply list_elem_of_singleton in Hfield as ->. inversion Hc.
  - destruct (Ascii.eqb_spec d sep) as [-> | Hd].
    + apply elem_of_cons in Hfield as [-> | Hfield]; [inversion Hc |].
      destruct (IH _ Hfield Hc). split; [by right | done].
    + pose proof (split_not_nil sep s) as Hne.
      destruct (split sep s) as [| f fs]; [done |].
      apply elem_of_cons in Hfield as [-> | Hfield].
      * simpl in Hc. apply elem_of_cons in Hc as [-> | Hc].
        -- split; [by left | done].
        -- destruct (IH f) as [? ?]; [by left | done |].
           split; [by right | done].
      * destruct (IH field) as [? ?]; [by right | done |].
        split; [by right | done].
Qed.

(** ** [strip] *)

Lemma chars_lstrip (s : string) : chars (lstrip s) = skip_spaces (chars s).
Proof.
  induction s as [| c s IH]; simpl; [done |]. by destruct (isspace c).
Qed.

Lemma chars_rev_append_string (s acc : string) :
  chars (rev_append_string s acc) = rev (chars s) ++ chars acc.
Proof.
  revert acc. induction s as [| c s IH]; intros acc; simpl; [done |].
  rewrite IH. simpl. by rewrite <- app_assoc.
Qed.

Lemma chars_rev_string (s : string) : chars (rev_string s) = rev (chars s).
Proof.
  unfold rev_string. rewrite chars_rev_append_string. simpl.
  by rewrite app_nil_r.
Qed.

Lemma chars_strip (s : string) :
  chars (strip s) = rev (skip_spaces (rev (skip_spaces (chars s)))).
Proof.
  unfold strip, rstrip.
  by rewrite chars_rev_string, chars_lstrip, chars_rev_string, chars_lstrip.
Qed.

Lemma skip_spaces_blank (l rest : list ascii) :
  Forall (fun c => isspace c = true) l ->
  skip_spaces (l ++ rest) = skip_spaces rest.
Proof.
  induction 1 as [| c l Hc _ IH]; simpl; [done | by rewrite Hc].
Qed.

Lemma skip_spaces_elem (l : list ascii) (c : ascii) :
  c ∈ skip_spaces l -> c ∈ l.
Proof.
  induction l as [| d l IH]; simpl; [done |].
  destruct (isspace d); [| done]. intros H. right. by apply IH.
Qed.

Lemma skip_spaces_head (l rest : list ascii) (c : ascii) :
  skip_spaces l = c :: rest -> isspace c = false.
Proof.
  induction l as [| d l IH]; simpl; [done |].
  destruct (isspace d) eqn:E; [done |]. by intros [= <- _].
Qed.

(** Either nothing is left, or the first character kept is followed by the
    rest of the list. *)
Lemma skip_spaces_app (l rest : list ascii) :
  skip_spaces l <> [] -> skip_spaces (l ++ rest) = skip_spaces l ++ rest.
Proof.
  induction l as [| d l IH]; simpl; [done |].
  destruct (isspace d); [done | done].
Qed.

Lemma skip_spaces_nil_blank (l : list ascii) :
  skip_spaces l = [] -> Forall (fun c => isspace c = true) l.
Proof.
  induction l as [| d l IH]; simpl; [constructor |].
  destruct (isspace d) eqn:E; [| done]. intros H. constructor; [done | by apply IH].
Qed.

(** White space on both sides of a string is stripped with it. *)
Lemma strip_padded (l r s : string) :
  blank l -> blank r ->
  strip (String.append l (String.append s r)) = strip s.
Proof.
  unfold blank. intros Hl Hr. apply chars_inj.
  rewrite !chars_strip, !chars_app, (skip_spaces_blank _ _ Hl).
  destruct (skip_spaces (chars s)) as [| c rest] eqn:E.
  - apply skip_spaces_nil_blank in E.
    rewrite (skip_spaces_blank _ _ E), <- (app_nil_r (chars r)).
    by rewrite (skip_spaces_blank _ _ Hr).
  - rewrite skip_spaces_app by (by rewrite E). rewrite E.
    rewrite rev_app_distr. apply (f_equal (@rev ascii)).
    apply skip_spaces_blank. by apply Forall_rev.
Qed.

(** ** Empty tokens, white space, and the characters of a combination *)

Lemma empty_part_rejected (s : string) :
  EmptyString ∈ hotkey_parts s -> _parse_hotkey_string s = None.
Proof. intros H. apply parse_None. by exists EmptyString. Qed.

(** X3: a hotkey string with an empty token is rejected: the empty string,
    a string that ends or starts with a plus sign, and a string with two
    plus signs in a row all parse to [None], whatever else they hold. *)
Theorem parse_rejects_empty_token (a b : string) :
  _parse_hotkey_string "" = None
  /\ _parse_hotkey_string (String.append a "+") = None
  /\ _parse_hotkey_string (String.append "+" a) = None
  /\ _parse_hotkey_string (String.append a (String.append "++" b)) = None.
Proof.
  assert (Hend : forall x y : string,
            EmptyString ∈ hotkey_parts (String.append x (String "+" y)) ->
            _parse_hotkey_string (String.append x (String "+" y)) = None).
  { intros x y. apply empty_part_rejected. }
  split; [| split; [| split]].
  - apply empty_part_rejected. by left.
  - apply (Hend a ""). unfold hotkey_parts.
    rewrite lower_app. simpl lower. change (lower_char "+") with "+"%char.
    rewrite split_app, fmap_app. apply elem_of_app. right. by left.
  - apply empty_part_rejected. unfold hotkey_parts. simpl. by left.
  - apply (Hend a (String "+" b)). unfold hotkey_parts.
    rewrite lower_app. simpl lower. change (lower_char "+") with "+"%char.
    rewrite split_app, fmap_app. apply elem_of_app. right. simpl. by left.
Qed.

Lemma lower_char_fixes_lowered (s : string) (c : ascii) :
  c ∈ chars (lower s) -> lower_char c = c.
Proof.
  rewrite chars_lower. intros H.
  apply list_elem_of_fmap in H as (d & -> & _). apply lower_char_idem.
Qed.

(** The only token that parses to a character key is that character. *)
Lemma parse_part_KeyCode (part : string) (c : ascii) :
  parse_part part = Some (KeyCode c) -> part = String c EmptyString.
Proof.
  unfold parse_part.
  destruct (assoc part _KEY_MAP) as [k |] eqn:E.
  - intros [= ->]. exfalso. revert E. unfold _KEY_MAP. simpl.
    repeat (destruct (String.eqb part _); [done |]). done.
  - destruct part as [| d [| d' rest]]; simpl; try done.
    + by intros [= ->].
    + by destruct (Key_getattr _).
Qed.

(** X4: the character keys of a parsed combination are never the plus
    sign, never a capital letter and never white space: the plus sign
    separates the tokens, and the tokens are put in small letters and
    stripped before they are looked up. *)
Theorem parsed_character_keys (s : string) (ks : gset key) (c : ascii) :
  _parse_hotkey_string s = Some ks ->
  KeyCode c ∈ ks ->
  c <> "+"%char /\ lower_char c = c /\ isspace c = false.
Proof.
  intros Hparse Hin. apply parse_Some in Hparse as (l & Hl & ->).
  apply elem_of_list_to_set in Hin.
  apply (mapM_parse_part_elem _ _ _ Hl) in Hin as (part & Hpart & Hk).
  apply parse_part_KeyCode in Hk as ->.
  unfold hotkey_parts in Hpart.
  apply list_elem_of_fmap in Hpart as (field & Hstrip & Hfield).
  assert (Hchars : chars (strip field) = [c]) by (by rewrite <- Hstrip).
  rewrite chars_strip in Hchars.
  assert (Hrev : skip_spaces (rev (skip_spaces (chars field))) = [c]).
  { apply (f_equal (@rev ascii)) in Hchars. by rewrite rev_involutive in Hchars. }
  assert (Hc : c ∈ chars field).
  { apply skip_spaces_elem. apply list_elem_of_In, in_rev, list_elem_of_In.
    apply skip_spaces_elem. rewrite Hrev. by left. }
  destruct (split_field_chars _ _ _ _ Hfield Hc) as [Hs Hplus].
  split; [done |]. split.
  - by apply (lower_char_fixes_lowered s).
  - by apply (skip_spaces_head _ _ _ Hrev).
Qed.

Lemma parsed_character_keys_witness :
  "a"%char <> "+"%char /\ lower_char "a" = "a"%char /\ isspace "a" = false.
Proof.
  apply (parsed_character_keys "Ctrl + A"
           (list_to_set [Special Key_ctrl; KeyCode "a"])).
  - apply parse_Some. exists [Special Key_ctrl; KeyCode "a"].
    split; [vm_compute; reflexivity | reflexivity].
  - apply elem_of_list_to_set. right. by left.
Defined.

Lemma blank_lower (s : string) : blank s -> blank (lower s).
Proof.
  unfold blank. rewrite chars_lower. intros H.
  apply Forall_fmap. eapply Forall_impl; [exact H |].
  intros c Hc. simpl.
  revert Hc. destruct c as [[] [] [] [] [] [] [] []]; vm_compute; done.
Qed.

Lemma lower_join (sep : ascii) (fields : list string) :
  lower_char sep = sep ->
  lower (join sep fields) = join sep (lower <$> fields).
Proof.
  intros Hsep. induction fields as [| f [| g fs] IH]; simpl in *; try done.
  rewrite lower_app. simpl. by rewrite Hsep, IH.
Qed.

Lemma plus_free_lower (s : string) :
  "+"%char ∉ chars s -> "+"%char ∉ chars (lower s).
Proof.
  rewrite chars_lower. intros Hfree Hin.
  apply list_elem_of_fmap in Hin as (d & Hd & Hin).
  assert (d = "+"%char) as ->; [| done].
  revert Hd. clear. destruct d as [[] [] [] [] [] [] [] []]; vm_compute; done.
Qed.

Lemma plus_free_blank (s : string) : blank s -> "+"%char ∉ chars s.
Proof.
  unfold blank. intros H Hin. rewrite Forall_forall in H.
  by specialize (H _ Hin).
Qed.

(** X5: white space around the tokens is ignored: putting the same white
    space to the left and to the right of every token of a hotkey string
    does not change what it parses to. *)
Theorem parse_ignores_white_space (l r : string) (tokens : list string) :
  blank l -> blank r ->
  Forall (fun token => "+"%char ∉ chars token) tokens ->
  _parse_hotkey_string
    (join "+" ((fun token => String.append l (String.append token r)) <$> tokens))
  = _parse_hotkey_string (join "+" tokens).
Proof.
  intros Hl Hr Hfree.
  destruct tokens as [| t ts]; [done |].
  unfold _parse_hotkey_string, hotkey_parts.
  rewrite !lower_join by done.
  rewrite !split_join.
  - rewrite <- !list_fmap_compose.
    assert (E : strip ∘ lower
                  ∘ (fun token => String.append l (String.append token r))
                  <$> t :: ts
                = strip ∘ lower <$> t :: ts).
    { apply list_fmap_ext. intros _ token _. simpl.
      rewrite !lower_app. apply strip_padded; by apply blank_lower. }
    by rewrite E.
  - done.
  - apply Forall_fmap. eapply Forall_impl; [exact Hfree |].
    intros token Htoken. by apply plus_free_lower.
  - done.
  - rewrite <- list_fmap_compose. apply Forall_fmap.
    eapply Forall_impl; [exact Hfree |]. intros token Htoken. simpl.
    apply plus_free_lower. rewrite !chars_app, !elem_of_app.
    pose proof (plus_free_blank _ Hl). pose proof (plus_free_blank _ Hr).
    naive_solver.
Qed.

Lemma parse_ignores_white_space_witness :
  _parse_hotkey_string " Shift  + space  "
  = _parse_hotkey_string "Shift+space".
Proof.
  apply (parse_ignores_white_space " " "  " ["Shift"; "space"]).
  - unfold blank. simpl. repeat constructor.
  - unfold blank. simpl. repeat constructor.
  - repeat constructor; simpl; rewrite !not_elem_of_cons; split_and!;
      try done; apply not_elem_of_nil.
Defined.

(** * Further properties of the listener *)

Lemma call_on_press_run (k : key) (s : HotkeyListener) :
  final (call (Call_on_press k) s) = final (_on_press k s)
  /\ effects (call (Call_on_press k) s) = effects (_on_press k s).
Proof.
  unfold call, bind, final, effects.
  destruct (_on_press k s) as [[[r | e] s'] log]; simpl; [| done].
  by rewrite app_nil_r.
Qed.

Lemma call_on_release_run (k : key) (s : HotkeyListener) :
  final (call (Call_on_release k) s) = final (_on_release k s)
  /\ effects (call (Call_on_release k) s) = effects (_on_release k s).
Proof.
  unfold call, bind, final, effects.
  destruct (_on_release k s) as [[[r | e] s'] log]; simpl; [| done].
  by rewrite app_nil_r.
Qed.

Lemma workers_spawned_app (log1 log2 : list effect) :
  workers_spawned (log1 ++ log2) = workers_spawned log1 ++ workers_spawned log2.
Proof. unfold workers_spawned. apply omap_app. Qed.

Lemma workers_spawned_stop_effects (s : HotkeyListener) :
  workers_spawned (stop_effects s) = [].
Proof. unfold stop_effects. by destruct (_listener s) as [[|] |]. Qed.

(** No call changes the trigger combination or the exit key. *)
Lemma call_keeps_hotkeys (op : operation) (s : HotkeyListener) :
  _trigger_combination (final (call op s)) = _trigger_combination s
  /\ _exit_key_obj (final (call op s)) = _exit_key_obj s.
Proof.
  destruct op as [cb | ok | | | | | status | k | k];
    [ unfold call, wait_for_exit; unfold_methods;
      repeat case_match; simplify_eq; simpl; done .. | | ].
  - rewrite (proj1 (call_on_press_run k s)).
    destruct (_exit_app_flag s) eqn:Hexit.
    + by rewrite (proj1 (handlers_halt_after_exit k s Hexit)).
    + destruct (on_press_final k s Hexit) as [-> | ->]; [done |].
      unfold_methods. by destruct (_listener s) as [[|] |].
  - rewrite (proj1 (call_on_release_run k s)).
    unfold_methods. by destruct (_exit_app_flag s).
Qed.

Lemma after_calls_keeps_hotkeys (ops : list operation) (s : HotkeyListener) :
  _trigger_combination (after_calls ops s) = _trigger_combination s
  /\ _exit_key_obj (after_calls ops s) = _exit_key_obj s.
Proof.
  revert s. induction ops as [| op ops IH]; intros s; simpl; [done |].
  destruct (IH (final (call op s))) as [-> ->]. apply call_keeps_hotkeys.
Qed.

(** A trigger with a key that is not its own normal form is never a subset
    of normalized keys. *)
Lemma raw_trigger_not_pressed (raw k : key) (s : HotkeyListener) :
  keys_normalized s ->
  raw ∈ _trigger_combination s ->
  _normalize_key raw <> raw ->
  ~ _trigger_combination s ⊆ keys_after_press k s.
Proof.
  intros Hnorm Hraw Hne Hsub. apply Hne.
  specialize (Hsub _ Hraw). unfold keys_after_press in Hsub.
  apply elem_of_union in Hsub as [Hin | Hin].
  - by apply Hnorm.
  - apply elem_of_singleton in Hin as ->. apply normalize_key_idem.
Qed.

Lemma raw_trigger_call_spawns_nothing (raw : key) (op : operation)
    (s : HotkeyListener) :
  keys_normalized s ->
  raw ∈ _trigger_combination s ->
  _normalize_key raw <> raw ->
  workers_spawned (effects (call op s)) = [].
Proof.
  intros Hnorm Hraw Hne.
  destruct op as [cb | ok | | | | | status | k | k];
    [ unfold call, wait_for_exit; unfold_methods;
      repeat case_match; simplify_eq; simpl; done .. | | ].
  - rewrite (proj2 (call_on_press_run k s)).
    destruct (_exit_app_flag s) eqn:Hexit.
    + by rewrite (proj1 (handlers_halt_after_exit k s Hexit)).
    + rewrite (on_press_cases k s Hexit).
      rewrite decide_False by (by apply (raw_trigger_not_pressed raw)).
      case_decide; simpl; [| done].
      apply workers_spawned_stop_effects.
  - rewrite (proj2 (call_on_release_run k s)).
    unfold_methods. by destruct (_exit_app_flag s).
Qed.

(** X6: a trigger combination that holds a key which is not its own normal
    form never fires: the handlers store normalized keys only, so on a
    listener built by the constructor no sequence of calls starts a worker.
    The parser puts such a key in the combination where the platform's
    lookup yields a side-specific modifier for a token: the right shift for
    [shift_r], and for [shift_l] the left shift, unless that name is an
    alias of the shift itself. *)
Theorem side_specific_trigger_never_fires
    (getattr_Key : string -> option key) (t e : string) (s : HotkeyListener)
    (raw : key) (ops : list operation) :
  __init__on getattr_Key t e = inr s ->
  raw ∈ _trigger_combination s ->
  _normalize_key raw <> raw ->
  workers_spawned (effects_of_calls ops s) = [].
Proof.
  intros Hinit Hraw Hne.
  assert (Hnorm : keys_normalized s).
  { destruct (init_on_fresh _ _ _ _ Hinit) as (Hkeys & _).
    intros k Hk. rewrite Hkeys in Hk. set_solver. }
  clear Hinit. revert s Hraw Hnorm.
  induction ops as [| op ops IH]; intros s Hraw Hnorm; simpl; [done |].
  rewrite workers_spawned_app.
  rewrite (raw_trigger_call_spawns_nothing raw op s Hnorm Hraw Hne). simpl.
  apply IH.
  - by rewrite (proj1 (call_keeps_hotkeys op s)).
  - by apply call_keeps_normalized.
Qed.

Lemma init_shift_r_a :
  __init__on aliasing_lookup "shift_r+a" "esc" = inr right_shift_listener.
Proof.
  rewrite init_on_with_esc.
  assert (E : _parse_hotkey_string_on aliasing_lookup "shift_r+a"
              = Some shift_r_a).
  { apply parse_on_Some. exists [Special Key_shift_r; KeyCode "a"].
    split; [vm_compute; reflexivity | reflexivity]. }
  by rewrite E.
Qed.

Lemma side_specific_trigger_never_fires_witness :
  workers_spawned (effects_of_calls right_shift_presses right_shift_listener)
  = [].
Proof.
  apply (side_specific_trigger_never_fires aliasing_lookup "shift_r+a" "esc"
           right_shift_listener (Special Key_shift_r)).
  - exact init_shift_r_a.
  - apply elem_of_list_to_set. by left.
  - discriminate.
Defined.

(** Where the left shift is an alias of the shift, the trigger of
    [shift_l+a] holds the shift itself, and the chord fires. *)
Example aliased_trigger_fires :
  match __init__on aliasing_lookup "shift_l+a" "esc" with
  | inr s =>
      workers_spawned
        (effects_of_calls
           [ Call_add_callback (Some workflow); Call_start true;
             Call_on_press (Special Key_shift); Call_on_press (KeyCode "a") ]
           s)
      = [workflow]
  | inl _ => False
  end.
Proof. vm_compute. reflexivity. Qed.

Lemma raw_exit_key_call (op : operation) (s : HotkeyListener) :
  _normalize_key (_exit_key_obj s) <> _exit_key_obj s ->
  op <> Call_request_exit ->
  _exit_app_flag s = false ->
  _exit_app_flag (final (call op s)) = false.
Proof.
  intros Hraw Hop Hexit.
  destruct op as [cb | ok | | | | | status | k | k]; try done;
    [ unfold call, wait_for_exit; unfold_methods;
      repeat case_match; simplify_eq; simpl; done .. | | ].
  - rewrite (proj1 (call_on_press_run k s)).
    rewrite (on_press_cases k s Hexit).
    assert (Hk : _normalize_key k <> _exit_key_obj s).
    { intros E. apply Hraw. rewrite <- E. apply normalize_key_idem. }
    destruct (decide (_normalize_key k = _exit_key_obj s)); [done |].
    repeat case_match; simpl; done.
  - rewrite (proj1 (call_on_release_run k s)).
    unfold_methods. by rewrite Hexit.
Qed.

(** X7: an exit key which is not its own normal form never requests the
    exit: pressed keys are normalized before they are compared with it, so
    on a listener built by the constructor the exit flag stays unset under
    every sequence of calls without a call of [request_exit].  The parser
    makes such a key the exit key where the platform's lookup yields a
    side-specific modifier for the exit string: the right ctrl for
    [ctrl_r], and for [ctrl_l] the left ctrl, unless that name is an alias
    of the ctrl itself. *)
Theorem side_specific_exit_key_is_dead
    (getattr_Key : string -> option key) (t e : string) (s : HotkeyListener)
    (ops : list operation) :
  __init__on getattr_Key t e = inr s ->
  _normalize_key (_exit_key_obj s) <> _exit_key_obj s ->
  Call_request_exit ∉ ops ->
  _exit_app_flag (after_calls ops s) = false.
Proof.
  intros Hinit Hraw Hops.
  destruct (init_on_fresh _ _ _ _ Hinit) as (_ & Hexit & _).
  clear Hinit. revert s Hraw Hexit.
  induction ops as [| op ops IH]; intros s Hraw Hexit; simpl; [done |].
  apply not_elem_of_cons in Hops as [Hop Hops].
  apply (IH Hops).
  - by rewrite (proj2 (call_keeps_hotkeys op s)).
  - by apply raw_exit_key_call.
Qed.

Lemma init_a_ctrl_r :
  __init__on aliasing_lookup "a" "ctrl_r" = inr right_ctrl_listener.
Proof.
  apply init_on_of_parses.
  - apply parse_on_Some. exists [KeyCode "a"].
    split; [vm_compute; reflexivity |]. simpl. set_solver.
  - apply parse_on_Some. exists [Special Key_ctrl_r].
    split; [vm_compute; reflexivity |]. simpl. set_solver.
Qed.

Lemma side_specific_exit_key_is_dead_witness :
  _exit_app_flag (after_calls ctrl_presses right_ctrl_listener) = false.
Proof.
  apply (side_specific_exit_key_is_dead aliasing_lookup "a" "ctrl_r").
  - exact init_a_ctrl_r.
  - discriminate.
  - unfold ctrl_presses. rewrite !not_elem_of_cons.
    split_and!; try discriminate. apply not_elem_of_nil.
Defined.

(** Where the left ctrl is an alias of the ctrl, the exit string [ctrl_l]
    names the ctrl itself, and a press of it requests the exit. *)
Example aliased_exit_key_exits :
  match __init__on aliasing_lookup "a" "ctrl_l" with
  | inr s =>
      _exit_key_obj s = Special Key_ctrl
      /\ _exit_app_flag
           (after_calls [Call_start true; Call_on_press (Special Key_ctrl)] s)
         = true
  | inl _ => False
  end.
Proof. vm_compute. done. Qed.

(** ** The life of the pynput listener: [start] and [stop] *)

(** X8: on a listener that is alive [start] changes nothing and returns
    [True]; where [start] returns [True] a listener is held afterwards, and
    where it returns [False] none is left behind.  [stop] always leaves no
    listener, and a second [stop], or a [stop] before any [start], changes
    nothing and stops nothing. *)
Theorem start_stop_lifecycle (start_ok : bool) (s : HotkeyListener) :
  (_listener s = Some true -> start start_ok s = (Return true, s, []))
  /\ (outcome (start start_ok s) = Return true ->
      _listener (final (start start_ok s)) <> None)
  /\ (outcome (start start_ok s) = Return false ->
      _listener (final (start start_ok s)) = None)
  /\ _listener (final (stop s)) = None
  /\ stop (final (stop s)) = (Return tt, final (stop s), [])
  /\ (_listener s = None -> stop s = (Return tt, s, [])).
Proof.
  split_and!.
  - intros E. unfold_methods. by rewrite E.
  - unfold_methods.
    destruct (_listener s) as [[|] |] eqn:E; destruct start_ok; simpl;
      rewrite ?E; done.
  - unfold_methods.
    destruct (_listener s) as [[|] |] eqn:E; destruct start_ok; simpl;
      rewrite ?E; done.
  - unfold_methods. destruct (_listener s) as [[|] |] eqn:E; simpl; by rewrite ?E.
  - unfold_methods. destruct (_listener s) as [[|] |] eqn:E; simpl; by rewrite ?E.
  - intros E. unfold_methods. by rewrite E.
Qed.

Lemma start_stop_lifecycle_witness :
  start false (listening false) = (Return true, listening false, [])
  /\ _listener (final (start true fresh_listener)) <> None
  /\ _listener (final (start false fresh_listener)) = None
  /\ stop fresh_listener = (Return tt, fresh_listener, []).
Proof.
  destruct (start_stop_lifecycle false (listening false))
    as (Halive & _).
  destruct (start_stop_lifecycle true fresh_listener)
    as (_ & Hstarted & _).
  destruct (start_stop_lifecycle false fresh_listener)
    as (_ & _ & Hfailed & _ & _ & Hnone).
  split; [by apply Halive |]. split; [by apply Hstarted |].
  split; [by apply Hfailed | by apply Hnone].
Defined.

(** ** Presses and releases *)

Lemma after_calls_cons (op : operation) (ops : list operation)
    (s : HotkeyListener) :
  after_calls (op :: ops) s = after_calls ops (final (call op s)).
Proof. reflexivity. Qed.

Lemma after_calls_nil (s : HotkeyListener) : after_calls [] s = s.
Proof. reflexivity. Qed.

Lemma set_current_keys_same (s : HotkeyListener) :
  set_current_keys (_current_keys s) s = s.
Proof. by destruct s. Qed.

(** X9: the release of a key that is not pressed is void: with no exit
    requested, the handler returns [None], the listener is what it was and
    nothing happens outside. *)
Theorem release_of_absent_key (k : key) (s : HotkeyListener) :
  _exit_app_flag s = false ->
  _normalize_key k ∉ _current_keys s ->
  _on_release k s = (Return PyNone, s, []).
Proof.
  intros Hexit Habsent. unfold_methods. rewrite Hexit. simpl.
  assert (E : _current_keys s ∖ {[ _normalize_key k ]} = _current_keys s)
    by set_solver.
  by rewrite E, set_current_keys_same.
Qed.

Lemma release_of_absent_key_witness :
  _on_release (Special Key_ctrl_l) (listening false)
  = (Return PyNone, listening false, []).
Proof.
  apply release_of_absent_key; [reflexivity |].
  unfold listening. simpl. set_solver.
Defined.

(** X10: a modifier is released by either of its keys: after the press of
    one variant and the release of another variant of the same family, the
    family's key is not pressed, whatever was pressed before; so with both
    shift keys down, letting one go makes the listener take shift for
    released. *)
Theorem release_is_side_agnostic (k k' : key) (s : HotkeyListener) :
  _exit_app_flag s = false ->
  _normalize_key k = _normalize_key k' ->
  _normalize_key k <> _exit_key_obj s ->
  _current_keys (after_calls [Call_on_press k; Call_on_release k'] s)
  = _current_keys s ∖ {[ _normalize_key k ]}
  /\ _normalize_key k
     ∉ _current_keys
         (after_calls [Call_on_press k; Call_on_press k'; Call_on_release k] s).
Proof.
  intros Hexit Hsame Hk.
  assert (Hpress : forall key0 s0,
            _exit_app_flag s0 = false -> _normalize_key key0 <> _exit_key_obj s0 ->
            _exit_app_flag (final (_on_press key0 s0)) = false
            /\ _exit_key_obj (final (_on_press key0 s0)) = _exit_key_obj s0).
  { intros key0 s0 H0 Hne. rewrite (on_press_cases key0 s0 H0).
    destruct (decide (_normalize_key key0 = _exit_key_obj s0)); [done |].
    repeat case_match; simpl; done. }
  rewrite !after_calls_cons, !after_calls_nil.
  rewrite !(proj1 (call_on_press_run _ _)), !(proj1 (call_on_release_run _ _)).
  destruct (Hpress k s Hexit Hk) as [Hexit1 Hkey1].
  split.
  - rewrite on_release_current_keys by done.
    rewrite on_press_current_keys by done. rewrite <- Hsame. set_solver.
  - assert (Hk' : _normalize_key k' <> _exit_key_obj (final (_on_press k s))).
    { by rewrite Hkey1, <- Hsame. }
    destruct (Hpress k' _ Hexit1 Hk') as [Hexit2 _].
    rewrite on_release_current_keys by done. set_solver.
Qed.

Lemma release_is_side_agnostic_witness :
  _current_keys
    (after_calls
       [Call_on_press (Special Key_shift_l); Call_on_release (Special Key_shift_r)]
       (listening false))
  = _current_keys (listening false) ∖ {[ _normalize_key (Special Key_shift_l) ]}
  /\ _normalize_key (Special Key_shift_l)
     ∉ _current_keys
         (after_calls
            [ Call_on_press (Special Key_shift_l);
              Call_on_press (Special Key_shift_r);
              Call_on_release (Special Key_shift_l) ]
            (listening false)).
Proof.
  apply release_is_side_agnostic; [reflexivity | reflexivity | discriminate].
Defined.

Lemma key_event_frame (op : operation) (s : HotkeyListener) :
  is_key_event op = true ->
  _is_running_query (final (call op s)) = _is_running_query s
  /\ _workflow_callback (final (call op s)) = _workflow_callback s.
Proof.
  destruct op as [cb | ok | | | | | status | k | k]; try done; intros _.
  - rewrite (proj1 (call_on_press_run k s)).
    destruct (_exit_app_flag s) eqn:Hexit.
    + by rewrite (proj1 (handlers_halt_after_exit k s Hexit)).
    + destruct (on_press_final k s Hexit) as [-> | ->]; [done |].
      unfold_methods. by destruct (_listener s) as [[|] |].
  - rewrite (proj1 (call_on_release_run k s)).
    unfold_methods. by destruct (_exit_app_flag s).
Qed.

(** X11: the key handlers never write the running flag, the callback, the
    trigger combination or the exit key: after any sequence of presses and
    releases these four are what they were.  Only the workflow, through
    [set_query_running], marks a query as running. *)
Theorem key_events_keep_configuration
    (ops : list operation) (s : HotkeyListener) :
  Forall (fun op => is_key_event op = true) ops ->
  _is_running_query (after_calls ops s) = _is_running_query s
  /\ _workflow_callback (after_calls ops s) = _workflow_callback s
  /\ _trigger_combination (after_calls ops s) = _trigger_combination s
  /\ _exit_key_obj (after_calls ops s) = _exit_key_obj s.
Proof.
  intros Hops. split; [| split; [| apply after_calls_keeps_hotkeys]].
  - revert s. induction Hops as [| op ops Hop _ IH]; intros s; [done |].
    rewrite after_calls_cons, IH. by apply key_event_frame.
  - revert s. induction Hops as [| op ops Hop _ IH]; intros s; [done |].
    rewrite after_calls_cons, IH. by apply key_event_frame.
Qed.

Lemma key_events_keep_configuration_witness :
  _is_running_query (after_calls both_shifts (listening false)) = false
  /\ _workflow_callback (after_calls both_shifts (listening false))
     = Some (Some workflow)
  /\ _trigger_combination (after_calls both_shifts (listening false))
     = shift_space
  /\ _exit_key_obj (after_calls both_shifts (listening false))
     = Special Key_esc.
Proof.
  apply (key_events_keep_configuration both_shifts (listening false)).
  repeat constructor.
Defined.

Lemma effects_of_calls_cons (op : operation) (ops : list operation)
    (s : HotkeyListener) :
  effects_of_calls (op :: ops) s
  = effects (call op s) ++ effects_of_calls ops (final (call op s)).
Proof. reflexivity. Qed.

(** A press with the chord held, nothing marked as running and a callback
    registered starts a worker and changes the pressed keys only. *)
Lemma press_with_chord_held (k : key) (s : HotkeyListener) (target : callable) :
  _exit_app_flag s = false ->
  _is_running_query s = false ->
  _workflow_callback s = Some (Some target) ->
  _trigger_combination s ⊆ _current_keys s ->
  _normalize_key k <> _exit_key_obj s ->
  _on_press k s
  = (Return PyNone, set_current_keys (keys_after_press k s) s,
     [ThreadStart target]).
Proof.
  intros Hexit Hrun Hcb Hheld Hk. rewrite (on_press_cases k s Hexit).
  rewrite decide_True by (unfold keys_after_press; set_solver).
  rewrite Hrun, Hcb. by rewrite decide_False by done.
Qed.

(** X12: the handler does not wait for the chord to be released: while the
    trigger keys are held, no exit is requested, a callback is registered
    and the running flag is still false (the worker sets it itself, later),
    every further press, of any key but the exit key, starts one more
    worker; a run of [n] such presses starts [n] workers. *)
Theorem every_press_with_chord_held_spawns
    (ks : list key) (s : HotkeyListener) (target : callable) :
  _exit_app_flag s = false ->
  _is_running_query s = false ->
  _workflow_callback s = Some (Some target) ->
  _trigger_combination s ⊆ _current_keys s ->
  Forall (fun k => _normalize_key k <> _exit_key_obj s) ks ->
  workers_spawned (effects_of_calls (Call_on_press <$> ks) s)
  = replicate (length ks) target.
Proof.
  intros Hexit Hrun Hcb Hheld Hks. revert s Hexit Hrun Hcb Hheld Hks.
  induction ks as [| k ks IH]; intros s Hexit Hrun Hcb Hheld Hks; [done |].
  apply Forall_cons in Hks as [Hk Hks].
  pose proof (press_with_chord_held k s target Hexit Hrun Hcb Hheld Hk) as E.
  rewrite fmap_cons, effects_of_calls_cons, workers_spawned_app.
  destruct (call_on_press_run k s) as [-> ->]. rewrite E. simpl.
  f_equal. apply IH; try done.
  unfold keys_after_press. simpl. set_solver.
Qed.

Lemma every_press_with_chord_held_spawns_witness :
  workers_spawned
    (effects_of_calls
       (Call_on_press <$> [Special Key_space; Special Key_space; KeyCode "x"])
       chord_held)
  = replicate 3 workflow.
Proof.
  apply (every_press_with_chord_held_spawns
           [Special Key_space; Special Key_space; KeyCode "x"]
           chord_held workflow); try reflexivity.
  repeat constructor; discriminate.
Defined.

Lemma key_events_after_exit (ops : list operation) (s : HotkeyListener) :
  _exit_app_flag s = true ->
  Forall (fun op => is_key_event op = true) ops ->
  after_calls ops s = s /\ effects_of_calls ops s = [].
Proof.
  intros Hexit Hops. induction Hops as [| op ops Hop _ IH]; [done |].
  rewrite after_calls_cons, effects_of_calls_cons.
  assert (E : final (call op s) = s /\ effects (call op s) = []).
  { destruct op as [cb | ok | | | | | status | k | k]; try done.
    - destruct (call_on_press_run k s) as [-> ->].
      by rewrite (proj1 (handlers_halt_after_exit k s Hexit)).
    - destruct (call_on_release_run k s) as [-> ->].
      by rewrite (proj2 (handlers_halt_after_exit k s Hexit)). }
  destruct E as [-> ->]. done.
Qed.

(** X13: the press of the exit key ends the processing of key events: if
    the handler reaches its exit check (here: the callback attribute is
    assigned), the listener is stopped and dropped, and no later press or
    release changes the listener or starts anything. *)
Theorem nothing_after_exit_key
    (k : key) (ops : list operation) (s : HotkeyListener) :
  _exit_app_flag s = false ->
  _normalize_key k = _exit_key_obj s ->
  _workflow_callback s <> None ->
  Forall (fun op => is_key_event op = true) ops ->
  after_calls (Call_on_press k :: ops) s = final (_on_press k s)
  /\ effects_of_calls ops (final (_on_press k s)) = []
  /\ _listener (after_calls (Call_on_press k :: ops) s) = None.
Proof.
  intros Hexit Hk Hcb Hops.
  destruct (exit_key_halts k s Hexit Hk (or_introl Hcb)) as (_ & Hflag & Hl).
  rewrite after_calls_cons, (proj1 (call_on_press_run k s)).
  destruct (key_events_after_exit ops _ Hflag Hops) as [-> ->].
  done.
Qed.

Lemma nothing_after_exit_key_witness :
  after_calls (Call_on_press (Special Key_esc) :: both_shifts) (listening true)
  = final (_on_press (Special Key_esc) (listening true))
  /\ effects_of_calls both_shifts
       (final (_on_press (Special Key_esc) (listening true))) = []
  /\ _listener
       (after_calls (Call_on_press (Special Key_esc) :: both_shifts)
          (listening true)) = None.
Proof.
  apply nothing_after_exit_key; [reflexivity | reflexivity | discriminate |].
  repeat constructor.
Defined.

(** * Further properties of the screenshot workflow *)

Lemma request_exit_sets_flag (s : HotkeyListener) :
  _exit_app_flag (final (request_exit s)) = true.
Proof.
  unfold_methods. destruct (_exit_app_flag s) eqn:E; simpl; [done |].
  by destruct (_listener s) as [[|] |].
Qed.

Lemma exit_requested_at_run (w : World) (i : nat) (s : HotkeyListener) :
  exit_requested_at w i s
  = (Return (_exit_app_flag s || exit_meanwhile w i), after_exit_read w i s, []).
Proof.
  unfold exit_requested_at, after_exit_read.
  destruct (exit_meanwhile w i).
  - unfold bind, modify, is_exit_requested, get, ret. simpl.
    rewrite request_exit_sets_flag. by rewrite orb_true_r.
  - unfold bind, is_exit_requested, get, ret. simpl. by rewrite orb_false_r.
Qed.

Lemma after_exit_read_flag (w : World) (i : nat) (s : HotkeyListener) :
  _exit_app_flag (after_exit_read w i s) = _exit_app_flag s || exit_meanwhile w i.
Proof.
  unfold after_exit_read. destruct (exit_meanwhile w i).
  - rewrite request_exit_sets_flag. by rewrite orb_true_r.
  - by rewrite orb_false_r.
Qed.

Lemma workflow_steps_effects (w : World) (path : option string)
    (s : HotkeyListener) :
  effects (try_except (workflow_steps w path) (fun _ => ret tt) s)
  = steps_log w path (_exit_app_flag s).
Proof.
  unfold try_except, workflow_steps, steps_log.
  destruct (truthy_path path); simpl; [| done].
  unfold bind at 1. rewrite exit_requested_at_run.
  destruct (_exit_app_flag s) eqn:Hflag; simpl; [done |].
  destruct (exit_meanwhile w 1) eqn:H1; simpl; [done |].
  assert (Hs : after_exit_read w 1 s = s).
  { unfold after_exit_read. by rewrite H1. }
  rewrite Hs. unfold bind, emit, answer. simpl.
  destruct (analysis_result w) as [text | e]; simpl; [| done].
  rewrite exit_requested_at_run, Hflag. simpl.
  destruct (exit_meanwhile w 2) eqn:H2; simpl; [done |].
  destruct (speaker_present w); simpl; [| done].
  destruct (String.prefix ERROR_PREFIX text); simpl; [done |].
  destruct (String.prefix BLOCKED_PREFIX text); simpl; [done |].
  destruct (speak_result w) as [ok | e]; simpl; [| done].
  by rewrite exit_requested_at_run.
Qed.

Lemma workflow_effects (w : World) (s : HotkeyListener) :
  effects (run_analysis_workflow w s)
  = [SetQueryRunning true; TakeScreenshot]
    ++ match screenshot_result w with
       | Return path => steps_log w path (_exit_app_flag s)
       | Raise _ => []
       end
    ++ [CleanupFile (screenshot_path_of w); SetQueryRunning false].
Proof.
  unfold run_analysis_workflow, try_local, screenshot_path_of.
  rewrite workflow_capture_run.
  destruct (screenshot_result w) as [path | e].
  - pose proof (workflow_steps_effects w path (set_is_running_query true s)) as E.
    unfold try_finally.
    destruct (try_except (workflow_steps w path) (fun _ => ret tt)
                (set_is_running_query true s)) as [[r s1] log1].
    rewrite workflow_finally_run. unfold effects in *. simpl in *.
    by rewrite E.
  - unfold try_finally, ret. by rewrite workflow_finally_run.
Qed.

(** ** C9: the workflow returns and cleans up *)

Lemma files_after_app (c : utils.Capture) (remove_ok : bool)
    (log1 log2 : list effect) (files : gset string) :
  files_after c remove_ok (log1 ++ log2) files
  = files_after c remove_ok log2 (files_after c remove_ok log1 files).
Proof.
  revert files. induction log1 as [| e log1 IH]; intros files; [done |].
  destruct e; simpl; apply IH.
Qed.

(** The steps between the capture and the [finally] block touch no file. *)
Lemma files_after_steps_log (c : utils.Capture) (remove_ok : bool)
    (w : World) (path : option string) (exit_before : bool)
    (files : gset string) :
  files_after c remove_ok (steps_log w path exit_before) files = files.
Proof.
  unfold steps_log.
  destruct (negb (truthy_path path) || exit_before || exit_meanwhile w 1);
    [done |].
  simpl. destruct (analysis_result w); [| done].
  by destruct (negb (exit_meanwhile w 2) && speaker_present w
               && negb (String.prefix ERROR_PREFIX a)
               && negb (String.prefix BLOCKED_PREFIX a)).
Qed.

(** C9, as the claim states it, fails: the temporary file of the capture
    can outlive the workflow.  When [os.remove] raises, [cleanup_file]
    catches the exception and prints a warning, and the file the capture
    has saved is still there after the run.  And when the image cannot be
    saved, [take_screenshot] has created the file and returns no path, so
    the workflow has no path to clean up. *)
Lemma C9_counterexample_file_remains :
  let saved := utils.mkCapture true (Some "/tmp/tmpab12.png") true in
  let unsaved := utils.mkCapture true (Some "/tmp/tmpab12.png") false in
  (outcome (run_analysis_workflow (world_of saved ∅) (listening false))
   = Return tt
   /\ bool_decide
        ("/tmp/tmpab12.png"
         ∈ files_after saved false
             (effects (run_analysis_workflow (world_of saved ∅)
                         (listening false))) ∅)
      = true)
  /\ (outcome (run_analysis_workflow (world_of unsaved ∅) (listening false))
      = Return tt
      /\ bool_decide
           ("/tmp/tmpab12.png"
            ∈ files_after unsaved true
                (effects (run_analysis_workflow (world_of unsaved ∅)
                            (listening false))) ∅)
         = true).
Proof. vm_compute. done. Qed.

(** C9, amended: whatever the collaborators answer (a path or no path, a
    text or an exception, a spoken or a failed speech) and whenever an exit
    is requested meanwhile, the workflow returns and does not raise; its
    first call is [set_query_running(True)], its last two calls are
    [cleanup_file] on the path that [take_screenshot] returned ([None] if it
    returned none or raised) and [set_query_running(False)], and the running
    flag is false when it returns.  On the files, the run comes to the
    capture followed by the cleanup of the path it returned: where the
    capture returned the path of its file and the removal does not fail,
    the file is gone after the run; where the removal fails, the files are
    as the capture left them; and the cleanup removes no other file. *)
Theorem C9_workflow_returns_and_resets :
  (forall (w : World) (s : HotkeyListener),
     outcome (run_analysis_workflow w s) = Return tt
     /\ (exists steps,
           effects (run_analysis_workflow w s)
           = [SetQueryRunning true; TakeScreenshot] ++ steps
             ++ [CleanupFile (screenshot_path_of w); SetQueryRunning false])
     /\ _is_running_query (final (run_analysis_workflow w s)) = false)
  /\ (forall (c : utils.Capture) (remove_ok : bool) (files : gset string)
             (w : World) (s : HotkeyListener),
        screenshot_result w = Return (fst (utils.take_screenshot c files)) ->
        files_after c remove_ok (effects (run_analysis_workflow w s)) files
        = utils.capture_then_cleanup c remove_ok files)
  /\ (forall (c : utils.Capture) (remove_ok : bool) (files : gset string)
             (path : string),
        fst (utils.take_screenshot c files) = Some path ->
        path <> EmptyString ->
        (remove_ok = true ->
         path ∉ utils.capture_then_cleanup c remove_ok files)
        /\ (remove_ok = false ->
            utils.capture_then_cleanup c remove_ok files
            = snd (utils.take_screenshot c files))
        /\ (forall other,
              other <> path ->
              other ∈ utils.capture_then_cleanup c remove_ok files
              <-> other ∈ snd (utils.take_screenshot c files))).
Proof.
  split; [| split].
  - intros w s.
    unfold run_analysis_workflow, try_local, screenshot_path_of.
    rewrite workflow_capture_run.
    destruct (screenshot_result w) as [path | e].
    + destruct (handled_then_finally (workflow_steps w path) path
                  (set_is_running_query true s)) as (s' & steps & ->).
      split; [done |]. split; [by exists steps | done].
    + unfold try_finally, ret. rewrite workflow_finally_run.
      split; [done |]. split; [by exists [] | done].
  - intros c remove_ok files w s Hw.
    rewrite workflow_effects. unfold screenshot_path_of. rewrite Hw.
    rewrite (files_after_app _ _ [SetQueryRunning true; TakeScreenshot]).
    rewrite files_after_app, files_after_steps_log. simpl.
    unfold utils.capture_then_cleanup.
    by destruct (utils.take_screenshot c files).
  - intros c remove_ok files path Hpath Hne.
    unfold utils.capture_then_cleanup.
    destruct (utils.take_screenshot c files) as [screenshot_path files1] eqn:E.
    simpl in Hpath. subst screenshot_path. simpl.
    assert (Hin : path ∈ files1).
    { unfold utils.take_screenshot in E.
      destruct (negb (utils.grab_ok c)); [done |].
      destruct (utils.temp_file c) as [p |]; [| done].
      destruct (utils.save_ok c); [| done].
      simplify_eq. set_solver. }
    unfold utils.cleanup_file.
    destruct path as [| ch rest]; [done |]. simpl.
    rewrite bool_decide_true by done.
    split; [| split].
    + intros ->. set_solver.
    + by intros ->.
    + intros other Hother. destruct remove_ok; [| done].
      rewrite elem_of_difference, elem_of_singleton. naive_solver.
Qed.

Lemma C9_workflow_returns_and_resets_witness :
  let saved := utils.mkCapture true (Some "/tmp/tmpab12.png") true in
  let notes : gset string := {[ "/home/user/notes.txt" ]} in
  files_after saved true
    (effects (run_analysis_workflow (world_of saved notes) (listening false)))
    notes
  = utils.capture_then_cleanup saved true notes
  /\ ("/tmp/tmpab12.png" ∉ utils.capture_then_cleanup saved true notes)
  /\ ("/home/user/notes.txt" ∈ utils.capture_then_cleanup saved true notes
      <-> "/home/user/notes.txt" ∈ snd (utils.take_screenshot saved notes)).
Proof.
  intros saved notes.
  destruct C9_workflow_returns_and_resets as (_ & Hrun & Hfiles).
  destruct (Hfiles saved true notes "/tmp/tmpab12.png")
    as (Hgone & _ & Hother); [reflexivity | discriminate |].
  split; [by apply Hrun |].
  split; [by apply Hgone | apply Hother; discriminate].
Defined.

(** X14: the workflow speaks a text exactly when a screenshot path was
    captured, no exit was requested by the first two reads of the flag, the
    analysis returned that text, a speaker is present, and the text starts
    neither with the error prefix nor with the blocked prefix.  So an
    analysis that raises, or that reports an error or a block, is never
    spoken, and nothing is spoken once an exit is requested. *)
Theorem workflow_speaks_iff (w : World) (s : HotkeyListener) (text : string) :
  Speak text ∈ effects (run_analysis_workflow w s)
  <-> (exists path, screenshot_result w = Return path /\ truthy_path path = true)
      /\ _exit_app_flag s = false
      /\ exit_meanwhile w 1 = false
      /\ exit_meanwhile w 2 = false
      /\ analysis_result w = Return text
      /\ speaker_present w = true
      /\ String.prefix ERROR_PREFIX text = false
      /\ String.prefix BLOCKED_PREFIX text = false.
Proof.
  rewrite workflow_effects, !elem_of_app.
  assert (Hout : forall l : list effect,
            (Speak text ∈ [SetQueryRunning true; TakeScreenshot]
             \/ Speak text ∈ l
             \/ Speak text
                ∈ [CleanupFile (screenshot_path_of w); SetQueryRunning false])
            <-> Speak text ∈ l).
  { intros l. rewrite !elem_of_cons, !elem_of_nil. naive_solver. }
  rewrite Hout. clear Hout.
  destruct (screenshot_result w) as [path | e].
  2: { rewrite elem_of_nil. naive_solver. }
  unfold steps_log.
  destruct (truthy_path path) eqn:Hpath; simpl.
  2: { rewrite elem_of_nil. split; [done |].
       intros ((p & [= <-] & Hp) & _). congruence. }
  destruct (_exit_app_flag s); simpl.
  { rewrite elem_of_nil. naive_solver. }
  destruct (exit_meanwhile w 1); simpl.
  { rewrite elem_of_nil. naive_solver. }
  rewrite elem_of_cons.
  destruct (analysis_result w) as [a | e].
  2: { rewrite elem_of_nil. naive_solver. }
  destruct (exit_meanwhile w 2); simpl.
  { rewrite elem_of_nil. naive_solver. }
  destruct (speaker_present w); simpl.
  2: { rewrite elem_of_nil. naive_solver. }
  destruct (String.prefix ERROR_PREFIX a) eqn:He; simpl.
  { rewrite elem_of_nil. split; [naive_solver |].
    intros (_ & _ & _ & _ & [= <-] & _ & He' & _). congruence. }
  destruct (String.prefix BLOCKED_PREFIX a) eqn:Hb; simpl.
  { rewrite elem_of_nil. split; [naive_solver |].
    intros (_ & _ & _ & _ & [= <-] & _ & _ & Hb'). congruence. }
  rewrite list_elem_of_singleton. split.
  - intros [H | [= <-]]; [done |]. split_and!; eauto.
  - intros (_ & _ & _ & _ & [= <-] & _). by right.
Qed.

(** X15: a workflow that starts after the exit was requested still takes
    the screenshot, and then only cleans up: nothing is analyzed and
    nothing is spoken. *)
Theorem workflow_after_exit_request (w : World) (s : HotkeyListener) :
  _exit_app_flag s = true ->
  effects (run_analysis_workflow w s)
  = [ SetQueryRunning true; TakeScreenshot;
      CleanupFile (screenshot_path_of w); SetQueryRunning false ].
Proof.
  intros Hexit. rewrite workflow_effects.
  destruct (screenshot_result w) as [path | e]; [| done].
  unfold steps_log. rewrite Hexit. by rewrite orb_true_r.
Qed.

Lemma workflow_after_exit_request_witness :
  effects (run_analysis_workflow
             (mkWorld (Return (Some "/tmp/shot.png")) (Return "Option 2 is correct")
                true (Return true) quiet)
             (set_exit_app_flag true (listening false)))
  = [ SetQueryRunning true; TakeScreenshot;
      CleanupFile (Some "/tmp/shot.png"); SetQueryRunning false ].
Proof. apply workflow_after_exit_request. reflexivity. Defined.

Lemma same_but_exit_refl (s : HotkeyListener) : same_but_exit s s.
Proof. by repeat split. Qed.

Lemma same_but_exit_trans (s1 s2 s3 : HotkeyListener) :
  same_but_exit s1 s2 -> same_but_exit s2 s3 -> same_but_exit s1 s3.
Proof.
  unfold same_but_exit. intros (? & ? & ? & ? & ?) (? & ? & ? & ? & ?).
  split_and!; congruence.
Qed.

Lemma after_exit_read_same (w : World) (i : nat) (s : HotkeyListener) :
  same_but_exit s (after_exit_read w i s)
  /\ (exit_meanwhile w i = false -> after_exit_read w i s = s).
Proof.
  unfold after_exit_read. destruct (exit_meanwhile w i); [| by split; [apply same_but_exit_refl |]].
  split; [| done]. unfold same_but_exit. unfold_methods.
  destruct (_exit_app_flag s); simpl; [done |].
  by destruct (_listener s) as [[|] |].
Qed.

Lemma workflow_steps_final (w : World) (path : option string)
    (s : HotkeyListener) :
  same_but_exit s (final (try_except (workflow_steps w path) (fun _ => ret tt) s))
  /\ ((forall i, exit_meanwhile w i = false) ->
      final (try_except (workflow_steps w path) (fun _ => ret tt) s) = s).
Proof.
  pose proof (fun i s0 => proj1 (after_exit_read_same w i s0)) as Hsame.
  pose proof (fun i s0 => proj2 (after_exit_read_same w i s0)) as Hquiet.
  remember (final (try_except (workflow_steps w path) (fun _ => ret tt) s))
    as f eqn:Ef.
  unfold try_except, workflow_steps in Ef.
  destruct (truthy_path path); simpl in Ef.
  2: { subst f. by split; [apply same_but_exit_refl |]. }
  unfold bind at 1 in Ef. rewrite exit_requested_at_run in Ef.
  destruct (_exit_app_flag s || exit_meanwhile w 1) eqn:H1; simpl in Ef.
  { subst f. split; [apply Hsame | intros Hq; by apply Hquiet]. }
  set (s1 := after_exit_read w 1 s) in *.
  assert (Hflag1 : _exit_app_flag s1 = false).
  { unfold s1. by rewrite after_exit_read_flag. }
  unfold bind, emit, answer in Ef. simpl in Ef.
  destruct (analysis_result w) as [text | e]; simpl in Ef.
  2: { subst f. split; [apply Hsame | intros Hq; by apply Hquiet]. }
  rewrite exit_requested_at_run, Hflag1 in Ef. simpl in Ef.
  set (s2 := after_exit_read w 2 s1) in *.
  assert (H12 : same_but_exit s s2).
  { eapply same_but_exit_trans; [apply (Hsame 1) | apply (Hsame 2)]. }
  assert (Hq12 : (forall i, exit_meanwhile w i = false) -> s2 = s).
  { intros Hq. unfold s2, s1. by rewrite !Hquiet. }
  destruct (exit_meanwhile w 2) eqn:H2; simpl in Ef; [by subst f |].
  destruct (speaker_present w); simpl in Ef; [| by subst f].
  destruct (String.prefix ERROR_PREFIX text); simpl in Ef; [by subst f |].
  destruct (String.prefix BLOCKED_PREFIX text); simpl in Ef; [by subst f |].
  destruct (speak_result w) as [ok | e]; simpl in Ef; [| by subst f].
  rewrite exit_requested_at_run in Ef. simpl in Ef. subst f. split.
  - eapply same_but_exit_trans; [exact H12 | apply (Hsame 3)].
  - intros Hq. rewrite Hquiet by done. by apply Hq12.
Qed.

(** X16: the workflow writes nothing of the listener but the running flag:
    the pressed keys, the trigger combination, the exit key and the
    callback are what they were when it began, and if no other thread
    requests an exit while it runs, the listener it leaves is the one it
    found, with the running flag false. *)
Theorem workflow_keeps_listener (w : World) (s : HotkeyListener) :
  _current_keys (final (run_analysis_workflow w s)) = _current_keys s
  /\ _trigger_combination (final (run_analysis_workflow w s))
     = _trigger_combination s
  /\ _exit_key_obj (final (run_analysis_workflow w s)) = _exit_key_obj s
  /\ _workflow_callback (final (run_analysis_workflow w s))
     = _workflow_callback s
  /\ ((forall i, exit_meanwhile w i = false) ->
      final (run_analysis_workflow w s) = set_is_running_query false s).
Proof.
  unfold run_analysis_workflow, try_local.
  rewrite workflow_capture_run.
  destruct (screenshot_result w) as [path | e].
  - destruct (workflow_steps_final w path (set_is_running_query true s))
      as [(Hk & _ & Ht & He & Hc) Hq].
    unfold try_finally.
    destruct (try_except (workflow_steps w path) (fun _ => ret tt)
                (set_is_running_query true s)) as [[r s1] log1].
    rewrite workflow_finally_run. unfold final in *. simpl in *.
    split_and!; try done. intros Hquiet. by rewrite (Hq Hquiet).
  - unfold try_finally, ret. rewrite workflow_finally_run. done.
Qed.

Lemma workflow_keeps_listener_witness :
  final (run_analysis_workflow
           (mkWorld (Return (Some "/tmp/shot.png")) (Return "Option 2 is correct")
              true (Return true) quiet)
           (listening false))
  = set_is_running_query false (listening false).
Proof.
  apply (workflow_keeps_listener
           (mkWorld (Return (Some "/tmp/shot.png")) (Return "Option 2 is correct")
              true (Return true) quiet)).
  reflexivity.
Defined.

(** * Properties of the analyzer *)





(** X18: [analyze_image] does not mark the failure of the call itself: it
    answers with the text of the exception as it is.  So when loading the
    image or the request fails with a message that does not happen to start
    with one of the two prefixes, the screenshot workflow speaks the
    message, if a speaker is present and no exit is requested. *)
Theorem image_failure_is_spoken
    (message : string) (path : string) (speak : result bool)
    (meanwhile : nat -> bool) (s : HotkeyListener) :
  reports_failure message = false ->
  path <> EmptyString ->
  _exit_app_flag s = false ->
  meanwhile 1 = false ->
  meanwhile 2 = false ->
  analyze_image (Failed message) = message
  /\ Speak message
     ∈ effects
         (run_analysis_workflow
            (mkWorld (Return (Some path))
               (Return (analyze_image (Failed message))) true speak meanwhile)
            s).
Proof.
  intros Hclean Hpath Hexit H1 H2. split; [done |].
  unfold reports_failure in Hclean. apply orb_false_elim in Hclean as [He Hb].
  rewrite workflow_effects. simpl. unfold steps_log. simpl.
  rewrite Hexit, H1, H2, He, Hb.
  destruct path as [| c rest]; [done |]. simpl.
  rewrite !elem_of_cons. naive_solver.
Qed.

Lemma image_failure_is_spoken_witness :
  analyze_image (Failed "cannot identify image file") = "cannot identify image file"
  /\ Speak "cannot identify image file"
     ∈ effects
         (run_analysis_workflow
            (mkWorld (Return (Some "/tmp/shot.png"))
               (Return (analyze_image (Failed "cannot identify image file")))
               true (Return true) quiet)
            (listening false)).
Proof.
  apply image_failure_is_spoken; try reflexivity. discriminate.
Defined.

(** * Properties of the text workflow *)

Lemma exit_read_run (meanwhile : nat -> bool) (i : nat) (s : HotkeyListener) :
  exists s',
    exit_read meanwhile i s = (Return (_exit_app_flag s || meanwhile i), s', [])
    /\ _exit_app_flag s' = (_exit_app_flag s || meanwhile i)
    /\ _is_running_query s' = _is_running_query s.
Proof.
  unfold exit_read. destruct (meanwhile i).
  - exists (final (request_exit s)).
    unfold bind, modify, is_exit_requested, get, ret. simpl.
    rewrite request_exit_sets_flag, orb_true_r. split_and!; try done.
    unfold_methods. destruct (_exit_app_flag s); simpl; [done |].
    by destruct (_listener s) as [[|] |].
  - exists s. unfold bind, is_exit_requested, get, ret. simpl.
    by rewrite orb_false_r.
Qed.

Lemma get_clipboard_text_truthy (paste : attempt (option string)) (text : string) :
  _get_clipboard_text paste = Some text ->
  paste = Done (Some text)
  /\ strip text <> EmptyString
  /\ truthy (Some text) = true.
Proof.
  unfold _get_clipboard_text. destruct paste as [[t |] | e]; try done.
  destruct (strip t) eqn:Hstrip; simpl; [done |]. intros [= <-].
  split; [done |]. split; [by rewrite Hstrip |].
  destruct t; [by vm_compute in Hstrip | done].
Qed.

Lemma text_workflow_analysis_run (w : TextWorld) (clipboard_text : string)
    (s : HotkeyListener) :
  exists r s',
    text_workflow_analysis w clipboard_text s
    = (r, s', text_analysis_log w clipboard_text (_exit_app_flag s)).
Proof.
  unfold text_workflow_analysis, text_analysis_log, reports_failure.
  unfold bind at 1.
  destruct (exit_read_run (text_exit_meanwhile w) 1 s) as (s1 & -> & Hflag1 & _).
  destruct (_exit_app_flag s) eqn:Hflag; simpl in *; [unfold ret; eauto |].
  destruct (text_exit_meanwhile w 1) eqn:H1; simpl in *; [unfold ret; eauto |].
  unfold bind at 1.
  destruct (exit_read_run (text_exit_meanwhile w) 2 s1) as (s2 & -> & Hflag2 & _).
  rewrite Hflag1. simpl.
  destruct (text_exit_meanwhile w 2) eqn:H2; simpl; [unfold ret; eauto |].
  destruct (text_speaker_present w); simpl; [| unfold ret; eauto].
  destruct (String.prefix ERROR_PREFIX _); simpl; [unfold ret; eauto |].
  destruct (String.prefix BLOCKED_PREFIX _); simpl; [unfold ret; eauto |].
  unfold bind at 1. unfold emit at 1. unfold bind at 1. unfold answer at 1.
  destruct (text_speak_result w) as [ok | e]; [| eauto].
  unfold bind at 1.
  destruct (exit_read_run (text_exit_meanwhile w) 3 s2) as (s3 & -> & _).
  unfold ret. simpl. eauto.
Qed.

Lemma text_workflow_steps_run (w : TextWorld) (s : HotkeyListener) :
  exists r s',
    text_workflow_steps w s
    = (r, s', SetQueryRunning true :: text_steps_log w (_exit_app_flag s)).
Proof.
  unfold text_workflow_steps, text_steps_log.
  unfold bind at 1. unfold set_query_running at 1.
  unfold bind at 1. unfold emit, modify. cbv beta iota.
  destruct (_get_clipboard_text (paste_result w)) as [clip |] eqn:Hclip;
    [| unfold ret; simpl; eauto].
  destruct (get_clipboard_text_truthy _ _ Hclip) as (_ & _ & ->).
  change (negb true) with false. cbv beta iota.
  destruct (text_workflow_analysis_run w clip (set_is_running_query true s))
    as (r & s' & ->).
  simpl. eauto.
Qed.

Lemma text_workflow_run (w : TextWorld) (s : HotkeyListener) :
  exists s',
    run_text_workflow w s
    = (Return tt, set_is_running_query false s',
       SetQueryRunning true :: text_steps_log w (_exit_app_flag s)
       ++ [SetQueryRunning false]).
Proof.
  unfold run_text_workflow, try_finally, try_except.
  destruct (text_workflow_steps_run w s) as (r & s' & ->).
  destruct r as [[] | e]; simpl; exists s'; [done |].
  by rewrite app_nil_r.
Qed.

(** X19: the text workflow returns on every path, whatever the clipboard,
    the analyzer and the speaker do and whenever an exit is requested: it
    does not raise, its first call is [set_query_running(True)], its last
    one [set_query_running(False)], and the running flag is false when it
    returns. *)
Theorem text_workflow_returns_and_resets (w : TextWorld) (s : HotkeyListener) :
  outcome (run_text_workflow w s) = Return tt
  /\ (exists steps,
        effects (run_text_workflow w s)
        = [SetQueryRunning true] ++ steps ++ [SetQueryRunning false])
  /\ _is_running_query (final (run_text_workflow w s)) = false.
Proof.
  destruct (text_workflow_run w s) as (s' & ->).
  split; [done |]. split; [| done]. by eexists.
Qed.



(** * Properties of the application's main loop *)












(** * Properties of the screenshot file *)

(** X23: a capture followed by the cleanup of the path it returned leaves
    the files as they were, when the name of the temporary file is new, the
    image is saved and the removal succeeds; and whatever happens, the
    cleanup removes no file but the one whose path it is given. *)
Theorem capture_then_cleanup_round_trip
    (c : utils.Capture) (remove_ok : bool) (files : gset string) :
  (forall path,
     utils.temp_file c = Some path ->
     path ∉ files ->
     path <> EmptyString ->
     utils.save_ok c = true ->
     remove_ok = true ->
     utils.capture_then_cleanup c remove_ok files = files)
  /\ (forall (file_path : option string) (other : string),
        Some other <> file_path ->
        other ∈ utils.cleanup_file remove_ok file_path files <-> other ∈ files).
Proof.
  split.
  - intros path Htemp Hnew Hne Hsave ->.
    unfold utils.capture_then_cleanup, utils.take_screenshot.
    destruct (utils.grab_ok c); simpl; [| done].
    rewrite Htemp, Hsave. unfold utils.cleanup_file.
    destruct path as [| ch rest]; [done |]. simpl.
    rewrite bool_decide_true by set_solver. set_solver.
  - intros file_path other Hother. unfold utils.cleanup_file.
    destruct file_path as [path |]; [| done].
    destruct (truthy (Some path) && bool_decide (path ∈ files)); [| done].
    destruct remove_ok; [| done].
    rewrite elem_of_difference, elem_of_singleton. naive_solver.
Qed.

Lemma capture_then_cleanup_round_trip_witness :
  utils.capture_then_cleanup
    (utils.mkCapture true (Some "/tmp/tmpab12.png") true) true
    {[ "/home/user/notes.txt" ]}
  = {[ "/home/user/notes.txt" ]}
  /\ ("/home/user/notes.txt"
      ∈ utils.cleanup_file true (Some "/tmp/tmpab12.png")
          {[ "/home/user/notes.txt" ]}
      <-> "/home/user/notes.txt" ∈ ({[ "/home/user/notes.txt" ]} : gset string)).
Proof.
  destruct (capture_then_cleanup_round_trip
              (utils.mkCapture true (Some "/tmp/tmpab12.png") true) true
              {[ "/home/user/notes.txt" ]}) as [Hround Hother].
  split.
  - apply (Hround "/tmp/tmpab12.png"); try done;
      try (apply not_elem_of_singleton; discriminate).
  - apply Hother. discriminate.
Defined.

(** X24: a capture whose image cannot be saved leaves its temporary file
    behind: [take_screenshot] has created the file, returns no path, and
    the cleanup of no path removes nothing, so the file still exists after
    the workflow's cleanup. *)
Theorem failed_save_leaves_temp_file
    (c : utils.Capture) (remove_ok : bool) (files : gset string)
    (path : string) :
  utils.grab_ok c = true ->
  utils.temp_file c = Some path ->
  utils.save_ok c = false ->
  fst (utils.take_screenshot c files) = None
  /\ path ∈ utils.capture_then_cleanup c remove_ok files.
Proof.
  intros Hgrab Htemp Hsave.
  unfold utils.capture_then_cleanup, utils.take_screenshot.
  rewrite Hgrab, Htemp, Hsave. simpl. split; [done | set_solver].
Qed.

Lemma failed_save_leaves_temp_file_witness :
  fst (utils.take_screenshot
         (utils.mkCapture true (Some "/tmp/tmpab12.png") false) ∅) = None
  /\ "/tmp/tmpab12.png"
     ∈ utils.capture_then_cleanup
         (utils.mkCapture true (Some "/tmp/tmpab12.png") false) true ∅.
Proof.
  apply failed_save_leaves_temp_file; reflexivity.
Defined.
